(** * IABS.compressor.cpp: the chunked encoder [h_encode] and the driver [main]

    A shallow embedding of [src/sciopt-compressors/IABS.compressor.cpp].

    - Integers of the program ([long long], [int], [unsigned short]) are [Z];
      a store into a narrower object is written with its wrap-around.
    - A byte is [Byte.byte]; a buffer the code only reads is a [list byte];
      the caller-allocated [output] region is a memory [Z -> byte] addressed
      relative to the [output] pointer (its capacity is not known to
      [h_encode]).
    - Multi-byte objects are laid out little-endian (the hosts the code is
      built for).
    - The [omp parallel for] is a transition system: one worker per chunk,
      each with its own program counter, interleaved by an arbitrary
      schedule; [carry] is the shared array. *)

From Stdlib Require Import ZArith Lia List String.
From Stdlib.Strings Require Import Byte.
From stdpp Require Import base tactics option list gmap strings.

Local Open Scope Z_scope.

Module IABS.

(** ** Bytes and little-endian objects *)

Abbreviation byte := Byte.byte.

(** [using byte = unsigned char]: conversion of an integer keeps the low
    eight bits. *)
Definition byte_of_Z (z : Z) : byte :=
  default Byte.x00 (Byte.of_N (Z.to_N (z mod 256))).

Definition Z_of_byte (b : byte) : Z := Z.of_N (Byte.to_N b).

(** The object representation of an integer stored in [n] bytes. *)
Fixpoint le_bytes (n : nat) (v : Z) : list byte :=
  match n with
  | O => []
  | S n' => byte_of_Z v :: le_bytes n' (v / 256)
  end.

(** The unsigned value of an object representation. *)
Fixpoint le_value (l : list byte) : Z :=
  match l with
  | [] => 0
  | b :: l' => Z_of_byte b + 256 * le_value l'
  end.

(** ** Memory relative to a base pointer *)

Definition mem := Z -> byte.

(** [memcpy(&m[dst], src, n)]: the first [n] bytes of [src] land at
    [dst, dst + n). *)
Definition memcpy (m : mem) (dst : Z) (src : list byte) (n : Z) : mem :=
  fun a =>
    if dst <=? a
    then default (m a) (take (Z.to_nat n) src !! Z.to_nat (a - dst))
    else m a.

(** The [n] bytes found at [a, a + n). *)
Definition load (m : mem) (a : Z) (n : nat) : list byte :=
  map (fun i => m (a + Z.of_nat i)) (seq 0 n).

(** A store of an [n]-byte integer object. *)
Definition store_le (m : mem) (a : Z) (n : nat) (v : Z) : mem :=
  memcpy m a (le_bytes n v) (Z.of_nat n).

(** ** Constants of the translation unit *)

(** [static const int CS = 1024 * 16;] *)
Definition CS : Z := 1024 * 16.

(** ** The encoder *)

(** Program counter of the worker that runs one iteration of the parallel
    loop.  [offs] is the only local that depends on other workers. *)
Inductive Phase :=
| Idle                      (* iteration not started *)
| Spinning                  (* chunk loaded and encoded, lines 92-109 done *)
| Ready (offs : Z)          (* past the carry wait, lines 110-116 *)
| Published (offs : Z)      (* [carry[chunkID]] written, lines 120 / 126 *)
| Done (offs : Z).          (* size and bytes stored, lines 121-122 / 127-128 *)

Record State := mkState {
  carry : list Z;
  workers : list Phase;
  output : mem
}.

(** What [h_BIT_4] leaves behind in the worker's locals. *)
Record Encoded := mkEncoded {
  good : bool;
  csize : Z;
  out : list byte
}.

(** The specification's [ceil(a / b)], for the chunk count. *)
Definition ceil_div (a b : Z) : Z := - ((- a) / b).

Section Encoder.

(** [components/h_BIT_4.h] is included by the translation unit but is not
    part of it.  The stage is a variable: from the [csize] valid bytes of
    [in] it yields the success flag and the valid bytes it wrote to [out];
    the new [csize] is their number. *)
Variable h_BIT_4 : list byte -> bool * list byte.

Variable input : list byte.
Variable insize : Z.

(** [const long long chunks = (insize + CS - 1) / CS;] *)
Definition chunks : Z := Z.quot (insize + CS - 1) CS.

(** [const long long base = chunkID * CS;] *)
Definition base (chunkID : nat) : Z := Z.of_nat chunkID * CS.

(** [const int osize = (int)std::min((long long)CS, insize - base);] *)
Definition osize (chunkID : nat) : Z := Z.min CS (insize - base chunkID).

(** [&input[base]] *)
Definition input_at (chunkID : nat) : list byte :=
  drop (Z.to_nat (base chunkID)) input.

(** [memcpy(out, &input[base], osize);] followed by the swap: the bytes the
    stage reads. *)
Definition load_chunk (chunkID : nat) : list byte :=
  take (Z.to_nat (osize chunkID)) (input_at chunkID).

(** Lines 101-106. *)
Definition encode_chunk (chunkID : nat) : Encoded :=
  let '(g, o) := h_BIT_4 (load_chunk chunkID) in
  {| good := g; csize := Z.of_nat (length o); out := o |}.

(** Address of [size_out[chunkID]]; the table starts at [&head_out[1]]. *)
Definition size_out (chunkID : nat) : Z := 8 + 2 * Z.of_nat chunkID.

(** [data_out = &size_out[chunks]] *)
Definition data_out : Z := 8 + 2 * chunks.

Definition set_worker (k : nat) (p : Phase) (s : State) : State :=
  mkState (carry s) (<[k := p]> (workers s)) (output s).

(** [#pragma omp atomic write  carry[chunkID] = v;] *)
Definition publish (k : nat) (v : Z) (s : State) : State :=
  mkState (<[k := v]> (carry s)) (workers s) (output s).

(** [size_out[chunkID] = size; memcpy(&data_out[offs], src, size);]
    The table entry is an [unsigned short]. *)
Definition store (k : nat) (offs : Z) (src : list byte) (size : Z)
    (s : State) : State :=
  mkState (carry s) (workers s)
    (memcpy (store_le (output s) (size_out k) 2 size)
            (data_out + offs) src size).

(** One move of the worker of chunk [k]. *)
Definition step_chunk (k : nat) (s : State) : State :=
  match workers s !! k with
  | Some Idle => set_worker k Spinning s
  | Some Spinning =>
      match k with
      | O => set_worker k (Ready 0) s
      | S k' =>
          (* do { offs = carry[chunkID - 1]; } while (offs == 0); *)
          match carry s !! k' with
          | Some offs => if offs =? 0 then s else set_worker k (Ready offs) s
          | None => s
          end
      end
  | Some (Ready offs) =>
      let e := encode_chunk k in
      if good e && (csize e <? osize k)
      then set_worker k (Published offs) (publish k (offs + csize e) s)
      else set_worker k (Published offs) (publish k (offs + osize k) s)
  | Some (Published offs) =>
      let e := encode_chunk k in
      if good e && (csize e <? osize k)
      then set_worker k (Done offs) (store k offs (out e) (csize e) s)
      else set_worker k (Done offs) (store k offs (input_at k) (osize k) s)
  | Some (Done _) | None => s
  end.

(** The workers are interleaved by a schedule: the list of chunk ids in
    the order in which their workers move. *)
Definition run (sched : list nat) (s : State) : State :=
  fold_left (fun s k => step_chunk k s) sched s.

(** Lines 85-86: [carry] zeroed, no iteration started. *)
Definition init (output0 : mem) : State :=
  mkState (replicate (Z.to_nat chunks) 0)
          (replicate (Z.to_nat chunks) Idle)
          output0.

Definition is_done (p : Phase) : bool :=
  match p with Done _ => true | _ => false end.

(** The implicit barrier that ends the parallel loop. *)
Definition finished (s : State) : bool := forallb is_done (workers s).

(** Lines 133-136.  [carry[chunks - 1]] is read out of bounds when there
    is no chunk: no result then. *)
Definition finish (s : State) : option (mem * Z) :=
  if 0 <? chunks
  then o ← carry s !! Z.to_nat (chunks - 1);
       Some (store_le (output s) 0 8 insize, data_out + o)
  else None.

(** [h_encode] under a schedule: the final [output] region and [outsize],
    when the schedule lets every iteration complete. *)
Definition h_encode (sched : list nat) (output0 : mem) : option (mem * Z) :=
  let s := run sched (init output0) in
  if finished s then finish s else None.

(** The schedule of a single thread: iterations in order, each run to its
    end. *)
Definition sequential : list nat :=
  flat_map (fun k => [k; k; k; k]) (seq 0 (Z.to_nat chunks)).

(** *** Vocabulary of the specification *)

(** The branch taken at line 117. *)
Definition compressed (k : nat) : bool :=
  good (encode_chunk k) && (csize (encode_chunk k) <? osize k).

(** [storedSize] of chunk [k]. *)
Definition stored_size (k : nat) : Z :=
  if compressed k then csize (encode_chunk k) else osize k.

(** The bytes chunk [k] contributes to the payload. *)
Definition stored_bytes (k : nat) : list byte :=
  if compressed k
  then take (Z.to_nat (csize (encode_chunk k))) (out (encode_chunk k))
  else take (Z.to_nat (osize k)) (input_at k).

(** Sum of the stored sizes of the chunks before [k]. *)
Fixpoint offset (k : nat) : Z :=
  match k with
  | O => 0
  | S k' => offset k' + stored_size k'
  end.

(** The stream layout: header, size table, payload. *)
Definition size_table : list byte :=
  flat_map (fun k => le_bytes 2 (stored_size k)) (seq 0 (Z.to_nat chunks)).

Definition payload : list byte :=
  flat_map stored_bytes (seq 0 (Z.to_nat chunks)).

Definition CompressedStream : list byte :=
  le_bytes 8 insize ++ size_table ++ payload.

(** *** The invariant of the carry chain *)

(** What holds of chunk [k] when its worker is in phase [p]. *)
Definition worker_inv (s : State) (k : nat) (p : Phase) : Prop :=
  match p with
  | Idle | Spinning => carry s !! k = Some 0
  | Ready offs => carry s !! k = Some 0 /\ offs = offset k
  | Published offs => carry s !! k = Some (offset (S k)) /\ offs = offset k
  | Done offs =>
      carry s !! k = Some (offset (S k)) /\ offs = offset k /\
      load (output s) (size_out k) 2 = le_bytes 2 (stored_size k) /\
      load (output s) (data_out + offset k) (length (stored_bytes k))
        = stored_bytes k
  end.

Definition inv (s : State) : Prop :=
  length (carry s) = Z.to_nat chunks /\
  length (workers s) = Z.to_nat chunks /\
  forall k p, workers s !! k = Some p -> worker_inv s k p.

(** How far a worker has come. *)
Definition rank (p : Phase) : nat :=
  match p with
  | Idle => 0
  | Spinning => 1
  | Ready _ => 2
  | Published _ => 3
  | Done _ => 4
  end.

(** A worker past the carry wait has a predecessor that has published. *)
Definition chained (s : State) : Prop :=
  forall k p, workers s !! S k = Some p -> (2 <= rank p)%nat ->
    exists p', workers s !! k = Some p' /\ (3 <= rank p')%nat.

End Encoder.

(** ** The stage and its inverse *)

(** Modelled from the spec: [components/h_BIT_4.h] is missing from the
    sources, so what the stage returns is taken from the specification
    (section 3, CarrySlot): the stored size of a chunk is strictly positive,
    a chunk being never empty.  For the compressed branch this says that a
    stage which reports success on a non-empty chunk wrote at least one
    byte. *)
Definition stage_nonempty (stage : list byte -> bool * list byte) : Prop :=
  forall c o, c <> [] -> stage c = (true, o) -> o <> [].

(** Modelled from the spec: the inverse of the compression stage is missing
    from the sources; section 4.5 only asks that it recovers the original
    chunk from the stored bytes.  [None] is the failure of the inverse. *)
Definition stage_inverse (stage : list byte -> bool * list byte)
    (inverse : list byte -> option (list byte)) : Prop :=
  forall c o, stage c = (true, o) -> inverse o = Some c.

(** ** The decoder *)

Section Decoder.

(** The inverse operation of the compression stage. *)
Variable h_iBIT_4 : list byte -> option (list byte).

(** Modelled from the spec: the decoder is missing from the sources; this is
    the contract of section 4.5.  For each [chunkID] in order: the original
    chunk size is [min(CS, originalSize - chunkID * CS)]; the stored size is
    read from the size table; a chunk whose stored size equals its original
    size is copied verbatim, any other goes through the inverse stage, which
    has to give back the original number of bytes.  A stored size larger
    than the original size, a payload that ends early and a failing inverse
    are decode errors. *)
Fixpoint decode_chunks (originalSize : Z) (table payload : list byte)
    (chunkID todo : nat) : option (list byte) :=
  match todo with
  | O => Some []
  | S todo' =>
      let originalChunkSize := osize originalSize chunkID in
      let storedSize := le_value (take 2 table) in
      if (originalChunkSize <? storedSize)
         || (Z.of_nat (length payload) <? storedSize)
      then None
      else
        let stored := take (Z.to_nat storedSize) payload in
        chunk ← (if storedSize =? originalChunkSize
                 then Some stored
                 else r ← h_iBIT_4 stored;
                      if Z.of_nat (length r) =? originalChunkSize
                      then Some r else None);
        rest ← decode_chunks originalSize (drop 2 table)
                 (drop (Z.to_nat storedSize) payload) (S chunkID) todo';
        Some (chunk ++ rest)
  end.

(** Modelled from the spec: the stream layout of section 6, read back. *)
Definition decode (stream : list byte) : option (list byte) :=
  let originalSize := le_value (take 8 stream) in
  let n := Z.to_nat (chunks originalSize) in
  decode_chunks originalSize
    (take (2 * n) (drop 8 stream)) (drop (8 + 2 * n) stream) 0 n.

End Decoder.

(** ** The driver *)

(** What [main] prints, without the formatting. *)
Inductive Message :=
| Banner                          (* "CPU LC 1.2 Algorithm: ..." *)
| Copyright                       (* "Copyright 2025 Texas State University" *)
| Usage (prog : option string)    (* "USAGE: %s input_file_name ..." *)
| OriginalSize (insize : Z)       (* "original size: %lld bytes" *)
| InputTooSmall                   (* "ERROR: input file too small" *)
| InvalidArgument.                (* "ERROR: Invalid argument. ..." *)

(** How the process ends. *)
Inductive Exit :=
| Return (status : Z)             (* [return] from [main] *)
| Throw (what : string)           (* [std::runtime_error] that nothing catches *)
| Undefined.                      (* a null [FILE*] handed to the C library *)

(** The files [fopen] can read, and the names it can open for writing. *)
Record FileSystem := mkFileSystem {
  contents : gmap string (list byte);
  writable : string -> bool
}.

Record Result := mkResult {
  exit : Exit;
  stdout : list Message;
  stderr : list Message;
  files : FileSystem
}.

(** [fopen(name, "wb")] creates or truncates the file. *)
Definition fopen_wb (fs : FileSystem) (name : string) : option FileSystem :=
  if writable fs name
  then Some (mkFileSystem (<[name := []]> (contents fs)) (writable fs))
  else None.

(** [fwrite(ptr, 1, count, f)] on a file just opened: [count] bytes, read
    from memory at [ptr] on. *)
Definition fwrite (fs : FileSystem) (name : string) (heap : mem) (ptr count : Z)
    : FileSystem :=
  mkFileSystem (<[name := load heap ptr (Z.to_nat count)]> (contents fs))
               (writable fs).

(** [long long dataset_size = 2207;] *)
Definition dataset_size : Z := 2207.

(** [double ref = 1.0f;] read as [unsigned long long]. *)
Definition ref_double : Z := 0x3FF0000000000000.

(** Lines 192-199: the bit pattern of [out] for one word. *)
Definition widen (curr_word : Z) : Z :=
  Z.lor ref_double (Z.shiftl curr_word 20).

(** [lc_data_4[idx]] *)
Definition word_at (lc_data : list byte) (idx : nat) : Z :=
  le_value (take 4 (drop (4 * idx) lc_data)).

Section Driver.

(** [preprocessors/h_QUANT_IABS_0_f32.h] is included by the translation unit
    but is not part of it.  The quantizer is a variable: it works in place
    on [lc_data], and the variable gives the bytes it leaves there; the
    error bound [ERRBND] is fixed when the program is built.  Nothing is
    assumed of it. *)
Variable h_QUANT_IABS_0_f32 : list byte -> list byte.

(** Lines 176-186: one dataset, quantized. *)
Definition dataset (input : list byte) (ds : nat) : list byte :=
  let lc_data_size := dataset_size * 4 in
  let start_off := Z.of_nat ds * lc_data_size in
  let lc_data :=
    take (Z.to_nat lc_data_size) (drop (Z.to_nat start_off) input) in
  h_QUANT_IABS_0_f32 lc_data.

(** Lines 191-203: [out_data[out_offset + idx] = out;] for every word of
    one dataset.  [out_data] is at address 0 of [heap]. *)
Definition widen_dataset (input : list byte) (heap : mem) (ds : nat) : mem :=
  let lc_data := dataset input ds in
  let lc_data_4_size := Z.quot (dataset_size * 4) 4 in
  fold_left
    (fun h idx =>
       let out_offset := Z.of_nat ds * dataset_size in
       store_le h (8 * (out_offset + Z.of_nat idx)) 8
                (widen (word_at lc_data idx)))
    (seq 0 (Z.to_nat lc_data_4_size)) heap.

(** Lines 169-204: the loop over the datasets.  [heap] is what
    [new double [outsize]] leaves in the array [out_data]: its elements are
    not initialised.  The loop writes inside the array only. *)
Definition run_datasets (input : list byte) (insize : Z) (heap : mem) : mem :=
  let num_datasets := Z.quot (Z.quot insize 4) dataset_size in
  fold_left (widen_dataset input) (seq 0 (Z.to_nat num_datasets)) heap.

(** A read past the end of [out_data] is out of bounds: what it finds is
    not determined by the text of the program.  In a run it is whatever the
    process keeps behind the array: data of the allocator, the [lc_data]
    buffers of lines 181-182, which are never freed, and so possibly bytes
    of the input.  The variable gives the byte such a read finds at an
    offset from [out_data], for the content of the input file; nothing is
    assumed of it. *)
Variable past_end : list byte -> mem.

(** [long long outsize = num_datasets * dataset_size;] and
    [new double [outsize]]: the size of [out_data] in bytes. *)
Definition out_data_bytes (insize : Z) : Z :=
  let num_datasets := Z.quot (Z.quot insize 4) dataset_size in
  let outsize := num_datasets * dataset_size in
  8 * outsize.

(** What a read at offset [a] from the start of an array of [size] bytes
    finds: the byte of the array inside it, and [behind a] past its end. *)
Definition read_from (array : mem) (size : Z) (behind : mem) : mem :=
  fun a => if a <? size then array a else behind a.

(** Lines 168-212, reached once the arguments are accepted.  [fwrite] is
    asked for [insize * 2] bytes of an array of [outsize * 8]. *)
Definition process (argv : list string) (fs : FileSystem) (heap : mem)
    (input : list byte) (insize : Z) (printed : list Message) : Result :=
  let out_data := run_datasets input insize heap in
  let memory :=
    read_from out_data (out_data_bytes insize) (past_end input) in
  match argv !! 2%nat ≫= fopen_wb fs with
  | None => mkResult Undefined printed [] fs
  | Some fs' =>
      mkResult (Return 0) printed []
        (fwrite fs' (default ""%string (argv !! 2%nat)) memory 0 (insize * 2))
  end.

(** [argv] holds the [argc] arguments; [argv[argc]] is the null pointer.
    [assert(insize == fsize)] is compiled out by [NDEBUG]: [fread] is taken
    to deliver the whole file.  [heap] is the content [out_data] is
    allocated with. *)
Definition main (argv : list string) (fs : FileSystem) (heap : mem) : Result :=
  let banner := [Banner; Copyright] in
  if Z.of_nat (length argv) <? 3
  then mkResult (Return (-1)) (banner ++ [Usage (argv !! 0%nat)]) [] fs
  else
    match argv !! 1%nat ≫= (fun name => contents fs !! name) with
    | None => mkResult Undefined banner [] fs
    | Some input =>
        let fsize := Z.of_nat (length input) in
        if fsize <=? 0
        then mkResult (Throw "LC error") banner [InputTooSmall] fs
        else
          let insize := fsize in
          let printed := banner ++ [OriginalSize insize] in
          match argv !! 3%nat with
          | Some perf_str =>
              if String.eqb perf_str "y"
              then process argv fs heap input insize printed
              else mkResult (Throw "LC error") printed [InvalidArgument] fs
          | None => process argv fs heap input insize printed
          end
    end.

End Driver.

(** ** Concrete stages, buffers and files, for runs of the model *)

(** A stage that drops the second of two leading zero bytes and fails on
    anything else, and its inverse. *)
Definition zz_stage (c : list byte) : bool * list byte :=
  match c with
  | x00 :: x00 :: r => (true, x00 :: r)
  | _ => (false, c)
  end.

Definition zz_inverse (o : list byte) : option (list byte) :=
  match o with
  | x00 :: r => Some (x00 :: x00 :: r)
  | _ => None
  end.

(** A stage that fails and leaves [out] filled with junk. *)
Definition junk_stage (c : list byte) : bool * list byte :=
  (false, repeat xff (length c)).

(** A stage outside the contract [stage_nonempty]: success with nothing
    written. *)
Definition empty_stage (c : list byte) : bool * list byte := (true, []).

(** Memory with nothing in it yet. *)
Definition blank : mem := fun _ => x00.

(** One short chunk. *)
Definition one_chunk : list byte := [x00; x00; x07].

(** A full chunk and a chunk of two bytes. *)
Definition two_chunks : list byte := repeat x00 (Z.to_nat (CS + 2)).

(** A file system with one input file of three bytes. *)
Definition one_file : FileSystem :=
  mkFileSystem {[ "in.bin"%string := [x01; x02; x03] ]} (fun _ => true).

(** A quantizer for runs: every byte goes up by one. *)
Definition bump (lc_data : list byte) : list byte :=
  map (fun b => byte_of_Z (Z_of_byte b + 1)) lc_data.

(** Memory behind [out_data] that still holds the bytes of the input. *)
Definition stale (input : list byte) : mem :=
  fun a => default xcd (input !! Z.to_nat a).

(** One dataset: 2207 words of four bytes. *)
Definition sample : list byte :=
  [x01; x02; x03; x04] ++ repeat x00 (Z.to_nat 8824).

(** A file system with one input file that holds one dataset and a byte
    more. *)
Definition one_dataset : FileSystem :=
  mkFileSystem {[ "in.bin"%string := sample ++ [x09] ]} (fun _ => true).

(** A file system with one input file that holds exactly one dataset. *)
Definition whole_dataset : FileSystem :=
  mkFileSystem {[ "in.bin"%string := sample ]} (fun _ => true).

(** The same dataset with another byte behind it. *)
Definition one_dataset' : FileSystem :=
  mkFileSystem {[ "in.bin"%string := sample ++ [x0a] ]} (fun _ => true).

End IABS.

Import IABS.

(** * Properties *)

(** ** Bytes and little-endian objects *)

Lemma Z_of_byte_range (b : byte) : 0 <= Z_of_byte b < 256.
Proof.
  unfold Z_of_byte. pose proof (Byte.to_N_bounded b) as Hb. lia.
Qed.

Lemma Z_of_byte_of_Z (z : Z) : Z_of_byte (byte_of_Z z) = z mod 256.
Proof.
  unfold Z_of_byte, byte_of_Z.
  assert (Hr : 0 <= z mod 256 < 256) by (apply Z.mod_pos_bound; lia).
  destruct (Byte.of_N (Z.to_N (z mod 256))) as [b|] eqn:Hb; simpl.
  - apply Byte.to_of_N in Hb. rewrite Hb. lia.
  - apply Byte.of_N_None_iff in Hb. lia.
Qed.

Lemma length_le_bytes (n : nat) (v : Z) : length (le_bytes n v) = n.
Proof. revert v. induction n as [|n IH]; intros v; simpl; [done | by rewrite IH]. Qed.

Lemma le_value_range (l : list byte) : 0 <= le_value l < 256 ^ Z.of_nat (length l).
Proof.
  induction l as [|b l IH]; simpl length; simpl le_value.
  - simpl. lia.
  - pose proof (Z_of_byte_range b).
    rewrite Nat2Z.inj_succ, Z.pow_succ_r by lia. lia.
Qed.

Lemma le_value_le_bytes (n : nat) (v : Z) :
  le_value (le_bytes n v) = v mod 256 ^ Z.of_nat n.
Proof.
  revert v. induction n as [|n IH]; intros v.
  - simpl. by rewrite Z.mod_1_r.
  - simpl le_bytes. simpl le_value. rewrite IH, Z_of_byte_of_Z.
    rewrite Nat2Z.inj_succ, Z.pow_succ_r by lia.
    rewrite Z.rem_mul_r by lia. lia.
Qed.

Lemma le_value_le_bytes_small (n : nat) (v : Z) :
  0 <= v < 256 ^ Z.of_nat n -> le_value (le_bytes n v) = v.
Proof. intros Hv. rewrite le_value_le_bytes. by apply Z.mod_small. Qed.

(** ** Memory *)

Lemma length_load (m : mem) (a : Z) (n : nat) : length (load m a n) = n.
Proof. unfold load. by rewrite length_map, length_seq. Qed.

Lemma lookup_load (m : mem) (a : Z) (n i : nat) :
  (i < n)%nat -> load m a n !! i = Some (m (a + Z.of_nat i)).
Proof.
  intros Hi. unfold load. rewrite list_lookup_fmap.
  by rewrite lookup_seq_lt.
Qed.

Lemma load_ext (m m' : mem) (a : Z) (n : nat) :
  (forall i, (i < n)%nat -> m (a + Z.of_nat i) = m' (a + Z.of_nat i)) ->
  load m a n = load m' a n.
Proof.
  intros H. apply list_eq_same_length with n; try apply length_load.
  intros i x y Hi. rewrite !lookup_load by done. intros ? ?. simplify_eq.
  by apply H.
Qed.

Lemma load_app (m : mem) (a : Z) (n1 n2 : nat) :
  load m a (n1 + n2) = load m a n1 ++ load m (a + Z.of_nat n1) n2.
Proof.
  apply list_eq_same_length with (n1 + n2)%nat.
  - rewrite length_app, !length_load. lia.
  - apply length_load.
  - intros i x y Hi. rewrite lookup_load by done. intros ? Hy. simplify_eq.
    destruct (decide (i < n1)%nat) as [Hlt|Hge].
    + rewrite lookup_app_l, lookup_load in Hy by (rewrite ?length_load; lia).
      by simplify_eq.
    + rewrite lookup_app_r, length_load, lookup_load in Hy
        by (rewrite ?length_load; lia).
      simplify_eq. f_equal. lia.
Qed.

Lemma memcpy_inside (m : mem) (d : Z) (src : list byte) (n : Z) (i : nat) (b : byte) :
  take (Z.to_nat n) src !! i = Some b ->
  memcpy m d src n (d + Z.of_nat i) = b.
Proof.
  intros Hb. unfold memcpy.
  destruct (Z.leb_spec d (d + Z.of_nat i)); [|lia].
  replace (Z.to_nat (d + Z.of_nat i - d)) with i by lia. by rewrite Hb.
Qed.

Lemma memcpy_outside (m : mem) (d : Z) (src : list byte) (n a : Z) :
  a < d \/ d + n <= a -> memcpy m d src n a = m a.
Proof.
  intros Ha. unfold memcpy.
  destruct (Z.leb_spec d a); [|done].
  rewrite lookup_ge_None_2; [done|].
  rewrite length_take. lia.
Qed.

Lemma load_memcpy_same (m : mem) (d : Z) (src : list byte) (n : Z) :
  0 <= n <= Z.of_nat (length src) ->
  load (memcpy m d src n) d (Z.to_nat n) = take (Z.to_nat n) src.
Proof.
  intros Hn. apply list_eq_same_length with (Z.to_nat n).
  - rewrite length_take. lia.
  - apply length_load.
  - intros i x y Hi. rewrite lookup_load by done. intros ? Hy. simplify_eq.
    by apply memcpy_inside.
Qed.

Lemma load_memcpy_disjoint (m : mem) (d : Z) (src : list byte) (n a : Z) (len : nat) :
  a + Z.of_nat len <= d \/ d + n <= a ->
  load (memcpy m d src n) a len = load m a len.
Proof.
  intros Hd. apply load_ext. intros i Hi. apply memcpy_outside. lia.
Qed.

Lemma load_store_le_same (m : mem) (a : Z) (n : nat) (v : Z) :
  load (store_le m a n v) a n = le_bytes n v.
Proof.
  unfold store_le.
  pose proof (load_memcpy_same m a (le_bytes n v) (Z.of_nat n)) as H.
  rewrite Nat2Z.id in H. rewrite H by (rewrite length_le_bytes; lia).
  apply take_ge. by rewrite length_le_bytes.
Qed.

Lemma load_store_le_disjoint (m : mem) (a : Z) (n : nat) (v b : Z) (len : nat) :
  b + Z.of_nat len <= a \/ a + Z.of_nat n <= b ->
  load (store_le m a n v) b len = load m b len.
Proof. intros H. unfold store_le. by apply load_memcpy_disjoint. Qed.

(** ** The chunk planner *)

Section EncoderProperties.

Context (h_BIT_4 : list byte -> bool * list byte).
Context (input : list byte) (insize : Z).

Local Abbreviation chunks := (chunks insize).
Local Abbreviation osize := (osize insize).
Local Abbreviation input_at := (input_at input).
Local Abbreviation load_chunk := (load_chunk input insize).
Local Abbreviation encode_chunk := (encode_chunk h_BIT_4 input insize).
Local Abbreviation data_out := (data_out insize).
Local Abbreviation step_chunk := (step_chunk h_BIT_4 input insize).
Local Abbreviation run := (run h_BIT_4 input insize).
Local Abbreviation init := (init insize).
Local Abbreviation finish := (finish insize).
Local Abbreviation h_encode := (h_encode h_BIT_4 input insize).
Local Abbreviation sequential := (sequential insize).
Local Abbreviation compressed := (compressed h_BIT_4 input insize).
Local Abbreviation stored_size := (stored_size h_BIT_4 input insize).
Local Abbreviation stored_bytes := (stored_bytes h_BIT_4 input insize).
Local Abbreviation offset := (offset h_BIT_4 input insize).
Local Abbreviation size_table := (size_table h_BIT_4 input insize).
Local Abbreviation payload := (payload h_BIT_4 input insize).
Local Abbreviation CompressedStream := (CompressedStream h_BIT_4 input insize).
Local Abbreviation worker_inv := (worker_inv h_BIT_4 input insize).
Local Abbreviation inv := (inv h_BIT_4 input insize).

(** [h_encode] is handed a buffer and its size, and the buffer is not
    empty. *)
Hypothesis Hinsize : insize = Z.of_nat (length input).
Hypothesis Hpos : 0 < insize.

Lemma CS_value : CS = 16384.
Proof. reflexivity. Qed.

Lemma chunks_div : chunks = (insize + CS - 1) / CS.
Proof.
  unfold IABS.chunks. rewrite CS_value.
  apply Z.quot_div_nonneg; lia.
Qed.

Lemma chunks_bounds : (chunks - 1) * CS < insize <= chunks * CS.
Proof.
  rewrite chunks_div. rewrite CS_value.
  pose proof (Z.div_mod (insize + 16384 - 1) 16384 ltac:(lia)) as Hdm.
  pose proof (Z.mod_pos_bound (insize + 16384 - 1) 16384 ltac:(lia)). lia.
Qed.

Lemma chunks_ceil : chunks = ceil_div insize CS.
Proof.
  pose proof chunks_bounds as Hb. unfold ceil_div. rewrite CS_value in *.
  pose proof (Z.div_mod (- insize) 16384 ltac:(lia)) as Hdm.
  pose proof (Z.mod_pos_bound (- insize) 16384 ltac:(lia)). lia.
Qed.

Lemma chunks_pos : 0 < chunks.
Proof. pose proof chunks_bounds. rewrite CS_value in *. lia. Qed.

Lemma osize_bounds (k : nat) :
  (k < Z.to_nat chunks)%nat -> 0 < osize k <= CS.
Proof.
  intros Hk. pose proof chunks_bounds as Hb.
  unfold IABS.osize, base. rewrite CS_value in *. lia.
Qed.

Lemma osize_full (k : nat) :
  (S k < Z.to_nat chunks)%nat -> osize k = CS.
Proof.
  intros Hk. pose proof chunks_bounds as Hb.
  unfold IABS.osize, base. rewrite CS_value in *. lia.
Qed.

Lemma osize_last :
  osize (Z.to_nat (chunks - 1)) = insize - (chunks - 1) * CS.
Proof.
  pose proof chunks_bounds as Hb. pose proof chunks_pos.
  unfold IABS.osize, base. rewrite CS_value in *. lia.
Qed.

Lemma base_osize (k : nat) :
  base k + osize k = Z.min (Z.of_nat (S k) * CS) insize.
Proof. unfold IABS.osize, base. rewrite CS_value. lia. Qed.

Lemma length_input_at (k : nat) :
  (k < Z.to_nat chunks)%nat ->
  Z.of_nat (length (input_at k)) = insize - base k.
Proof.
  intros Hk. pose proof chunks_bounds as Hb.
  unfold IABS.input_at. rewrite length_drop.
  unfold base. rewrite CS_value in *. lia.
Qed.

Lemma length_load_chunk (k : nat) :
  (k < Z.to_nat chunks)%nat ->
  Z.of_nat (length (load_chunk k)) = osize k.
Proof.
  intros Hk. pose proof (osize_bounds k Hk). pose proof (length_input_at k Hk).
  unfold IABS.load_chunk. rewrite length_take.
  unfold IABS.osize in *. lia.
Qed.

Lemma load_chunk_nonempty (k : nat) :
  (k < Z.to_nat chunks)%nat -> load_chunk k <> [].
Proof.
  intros Hk Hnil. pose proof (length_load_chunk k Hk) as Hl.
  pose proof (osize_bounds k Hk). rewrite Hnil in Hl. simpl in Hl. lia.
Qed.

(** Chunk [k] is the part of the input after the chunks before it. *)
Lemma chunks_prefix (j : nat) :
  (j <= Z.to_nat chunks)%nat ->
  flat_map load_chunk (seq 0 j) = take (Z.to_nat (base j)) input.
Proof.
  induction j as [|j IH]; intros Hj.
  - by rewrite take_0.
  - rewrite seq_S, flat_map_app, IH by lia. simpl. rewrite app_nil_r.
    assert (Hk : (j < Z.to_nat chunks)%nat) by lia.
    pose proof (osize_bounds j Hk) as Ho.
    unfold IABS.load_chunk, IABS.input_at.
    rewrite take_take_drop.
    destruct (decide (S j < Z.to_nat chunks)%nat) as [Hlt|Hge].
    + f_equal. rewrite (osize_full j Hlt). unfold base. lia.
    + pose proof chunks_bounds as Hb.
      rewrite !take_ge; [done | |];
        unfold IABS.osize, base in *; rewrite CS_value in *; try lia.
Qed.

Lemma chunks_partition :
  flat_map load_chunk (seq 0 (Z.to_nat chunks)) = input.
Proof.
  rewrite chunks_prefix by lia. apply take_ge.
  pose proof chunks_bounds as Hb. pose proof chunks_pos.
  unfold base. rewrite CS_value in *. lia.
Qed.

(** ** What a chunk stores *)

Lemma encode_chunk_csize (k : nat) :
  csize (encode_chunk k) = Z.of_nat (length (out (encode_chunk k))).
Proof. unfold IABS.encode_chunk. by destruct (h_BIT_4 _). Qed.

Lemma compressed_true (k : nat) :
  compressed k = true <->
  good (encode_chunk k) = true /\ csize (encode_chunk k) < osize k.
Proof.
  unfold IABS.compressed. rewrite andb_true_iff, Z.ltb_lt. tauto.
Qed.

Lemma compressed_false (k : nat) :
  compressed k = false <->
  good (encode_chunk k) = false \/ osize k <= csize (encode_chunk k).
Proof.
  unfold IABS.compressed. rewrite andb_false_iff, Z.ltb_ge. tauto.
Qed.

Lemma stored_size_bounds (k : nat) :
  (k < Z.to_nat chunks)%nat -> 0 <= stored_size k <= osize k.
Proof.
  intros Hk. pose proof (osize_bounds k Hk).
  unfold IABS.stored_size. destruct (compressed k) eqn:Hc; [|lia].
  apply compressed_true in Hc. rewrite encode_chunk_csize in *. lia.
Qed.

Lemma length_stored_bytes (k : nat) :
  (k < Z.to_nat chunks)%nat ->
  Z.of_nat (length (stored_bytes k)) = stored_size k.
Proof.
  intros Hk. pose proof (osize_bounds k Hk).
  pose proof (length_input_at k Hk).
  unfold IABS.stored_bytes, IABS.stored_size.
  destruct (compressed k); rewrite length_take.
  - rewrite encode_chunk_csize. lia.
  - unfold IABS.osize in *. lia.
Qed.

(** A chunk stored raw is stored as the bytes the worker loaded. *)
Lemma stored_bytes_raw (k : nat) :
  compressed k = false -> stored_bytes k = load_chunk k.
Proof. intros Hc. unfold IABS.stored_bytes. by rewrite Hc. Qed.

Lemma offset_mono (j k : nat) :
  (j <= k <= Z.to_nat chunks)%nat -> offset j <= offset k.
Proof.
  induction k as [|k IH]; intros Hjk.
  - by replace j with 0%nat by lia.
  - destruct (decide (j = S k)) as [->|Hne]; [done|].
    pose proof (stored_size_bounds k ltac:(lia)). simpl.
    specialize (IH ltac:(lia)). lia.
Qed.

Lemma offset_nonneg (k : nat) :
  (k <= Z.to_nat chunks)%nat -> 0 <= offset k.
Proof. intros Hk. apply (offset_mono 0 k). lia. Qed.

(** The payload windows of two chunks do not overlap. *)
Lemma windows_disjoint (j k : nat) :
  j <> k -> (j < Z.to_nat chunks)%nat -> (k < Z.to_nat chunks)%nat ->
  offset j + stored_size j <= offset k \/ offset k + stored_size k <= offset j.
Proof.
  intros Hne Hj Hk. destruct (decide (j < k)%nat).
  - left. apply (offset_mono (S j) k). lia.
  - right. apply (offset_mono (S k) j). lia.
Qed.

(** ** One move of a worker *)

Lemma step_ready (k : nat) (offs : Z) (s : State) :
  workers s !! k = Some (Ready offs) ->
  step_chunk k s
  = set_worker k (Published offs) (publish k (offs + stored_size k) s).
Proof.
  intros Hp. unfold IABS.step_chunk. rewrite Hp.
  unfold IABS.stored_size, IABS.compressed. simpl.
  by destruct (good (encode_chunk k) && (csize (encode_chunk k) <? osize k)).
Qed.

Lemma step_published (k : nat) (offs : Z) (s : State) :
  workers s !! k = Some (Published offs) ->
  exists src,
    step_chunk k s
    = set_worker k (Done offs) (store insize k offs src (stored_size k) s) /\
    take (Z.to_nat (stored_size k)) src = stored_bytes k.
Proof.
  intros Hp. unfold IABS.step_chunk. rewrite Hp.
  unfold IABS.stored_size, IABS.stored_bytes, IABS.compressed. simpl.
  destruct (good (encode_chunk k) && (csize (encode_chunk k) <? osize k));
    eauto.
Qed.

(** A worker moves alone. *)
Lemma step_chunk_workers_ne (k k' : nat) (s : State) :
  k <> k' -> workers (step_chunk k s) !! k' = workers s !! k'.
Proof.
  intros Hne. unfold IABS.step_chunk.
  repeat case_match; simpl; try done; by rewrite list_lookup_insert_ne.
Qed.

Lemma step_chunk_lengths (k : nat) (s : State) :
  length (carry (step_chunk k s)) = length (carry s) /\
  length (workers (step_chunk k s)) = length (workers s).
Proof.
  unfold IABS.step_chunk.
  repeat case_match; simpl; rewrite ?length_insert; done.
Qed.

(** ** The invariant of the carry chain *)

Lemma inv_init (output0 : mem) : inv (init output0).
Proof.
  unfold IABS.inv, IABS.init. simpl. rewrite !length_replicate.
  split; [done|]. split; [done|].
  intros k p Hp. apply lookup_replicate in Hp as [-> Hk]. simpl.
  by apply lookup_replicate.
Qed.

(** The facts about chunk [k'] survive a change of state that leaves its
    carry slot and its two windows of the output alone. *)
Lemma worker_inv_frame (s s' : State) (k' : nat) (p : Phase) :
  carry s' !! k' = carry s !! k' ->
  load (output s') (size_out k') 2 = load (output s) (size_out k') 2 ->
  load (output s') (data_out + offset k') (length (stored_bytes k'))
  = load (output s) (data_out + offset k') (length (stored_bytes k')) ->
  worker_inv s k' p -> worker_inv s' k' p.
Proof.
  intros Hc H1 H2. destruct p; simpl; rewrite ?Hc, ?H1, ?H2; done.
Qed.

Lemma inv_update (k : nat) (p : Phase) (s s' : State) :
  inv s ->
  length (carry s') = length (carry s) ->
  workers s' = workers s ->
  (forall k' p', k' <> k -> workers s !! k' = Some p' ->
                 worker_inv s k' p' -> worker_inv s' k' p') ->
  worker_inv s' k p ->
  inv (set_worker k p s').
Proof.
  intros (Hc & Hw & Hall) Hc' Hw' Hframe Hk.
  unfold IABS.inv. simpl. rewrite length_insert, Hc', Hw'.
  split; [done|]. split; [done|].
  intros k' p' Hp'. destruct (decide (k' = k)) as [->|Hne].
  - assert (k < length (workers s))%nat as Hlt.
    { apply lookup_lt_Some in Hp'. by rewrite length_insert in Hp'. }
    rewrite list_lookup_insert_eq in Hp' by done. by simplify_eq.
  - rewrite list_lookup_insert_ne in Hp' by done.
    apply (Hframe k' p' Hne Hp'). by apply Hall.
Qed.

(** The two windows of chunk [k] after the store of lines 121-122 and
    127-128. *)
Lemma store_own_windows (k : nat) (src : list byte) (s : State) :
  (k < Z.to_nat chunks)%nat ->
  take (Z.to_nat (stored_size k)) src = stored_bytes k ->
  let s' := store insize k (offset k) src (stored_size k) s in
  load (output s') (size_out k) 2 = le_bytes 2 (stored_size k) /\
  load (output s') (data_out + offset k) (length (stored_bytes k))
  = stored_bytes k.
Proof.
  intros Hk Hsrc. simpl.
  pose proof (stored_size_bounds k Hk) as Hb.
  pose proof (length_stored_bytes k Hk) as Hl.
  pose proof (offset_nonneg k ltac:(lia)) as Ho.
  split.
  - rewrite load_memcpy_disjoint.
    + apply load_store_le_same.
    + left. unfold size_out, IABS.data_out. lia.
  - replace (length (stored_bytes k)) with (Z.to_nat (stored_size k)) by lia.
    rewrite <- Hsrc. apply load_memcpy_same.
    split; [lia|]. rewrite <- Hl, <- Hsrc, length_take. lia.
Qed.

Lemma store_other_windows (k k' : nat) (src : list byte) (s : State) :
  k' <> k -> (k < Z.to_nat chunks)%nat -> (k' < Z.to_nat chunks)%nat ->
  let s' := store insize k (offset k) src (stored_size k) s in
  load (output s') (size_out k') 2 = load (output s) (size_out k') 2 /\
  load (output s') (data_out + offset k') (length (stored_bytes k'))
  = load (output s) (data_out + offset k') (length (stored_bytes k')).
Proof.
  intros Hne Hk Hk'. simpl.
  pose proof (stored_size_bounds k Hk).
  pose proof (length_stored_bytes k' Hk').
  pose proof (offset_nonneg k ltac:(lia)).
  pose proof (offset_nonneg k' ltac:(lia)).
  pose proof (windows_disjoint k' k Hne Hk' Hk).
  split.
  - rewrite load_memcpy_disjoint, load_store_le_disjoint; [done | |];
      unfold size_out, IABS.data_out; lia.
  - rewrite load_memcpy_disjoint, load_store_le_disjoint; [done | |];
      unfold size_out, IABS.data_out; lia.
Qed.

Lemma inv_step (k : nat) (s : State) : inv s -> inv (step_chunk k s).
Proof.
  intros Hinv. pose proof Hinv as (Hc & Hw & Hall).
  destruct (workers s !! k) as [p|] eqn:Hp;
    [|by unfold IABS.step_chunk; rewrite Hp].
  pose proof (Hall k p Hp) as Hk.
  assert (k < Z.to_nat chunks)%nat as Hlt.
  { apply lookup_lt_Some in Hp. lia. }
  destruct p as [| |offs|offs|offs].
  - (* the iteration starts *)
    unfold IABS.step_chunk. rewrite Hp. by apply inv_update with (s := s).
  - (* the carry wait *)
    unfold IABS.step_chunk. rewrite Hp. destruct k as [|k'].
    + by apply inv_update with (s := s).
    + destruct (carry s !! k') as [offs|] eqn:Hoffs; [|done].
      destruct (Z.eqb_spec offs 0) as [|Hnz]; [done|].
      apply inv_update with (s := s); try done. simpl. split; [done|].
      destruct (workers s !! k') as [p'|] eqn:Hp'.
      * specialize (Hall k' p' Hp').
        destruct p'; simpl in Hall; destruct_and?; by simplify_eq.
      * apply lookup_ge_None in Hp'. lia.
  - (* the carry is published *)
    rewrite (step_ready k offs s Hp). destruct Hk as [Hk ->].
    apply inv_update with (s := s); try done.
    + simpl. by rewrite length_insert.
    + intros k' p' Hne Hp' Hk'. eapply (worker_inv_frame s); [|reflexivity|reflexivity|exact Hk'].
      simpl. by rewrite list_lookup_insert_ne.
    + simpl. split; [|done]. rewrite list_lookup_insert_eq; [done|lia].
  - (* the chunk is stored *)
    destruct (step_published k offs s Hp) as (src & -> & Hsrc).
    destruct Hk as [Hk ->].
    apply inv_update with (s := s); try done.
    + intros k' p' Hne Hp' Hk'.
      assert (k' < Z.to_nat chunks)%nat as Hlt'.
      { apply lookup_lt_Some in Hp'. lia. }
      destruct (store_other_windows k k' src s Hne Hlt Hlt') as [H1 H2].
      by eapply (worker_inv_frame s).
    + destruct (store_own_windows k src s Hlt Hsrc) as [H1 H2].
      split; [exact Hk | split; [done | split; [exact H1 | exact H2]]].
  - unfold IABS.step_chunk. by rewrite Hp.
Qed.

Lemma inv_run (sched : list nat) (s : State) : inv s -> inv (run sched s).
Proof.
  revert s. induction sched as [|k sched IH]; intros s Hs; [done|].
  simpl. apply IH. by apply inv_step.
Qed.

(** ** The result of [h_encode] *)

Lemma finished_done (s : State) (k : nat) (p : Phase) :
  finished s = true -> workers s !! k = Some p -> exists offs, p = Done offs.
Proof.
  intros Hf Hp. unfold finished in Hf. rewrite forallb_forall in Hf.
  specialize (Hf p). destruct p; eauto; discriminate Hf;
    apply list_elem_of_In; by eapply list_elem_of_lookup_2.
Qed.

(** In a state of the invariant in which every worker is done, chunk [k]
    has its carry, its table entry and its payload window. *)
Lemma finished_chunk (s : State) (k : nat) :
  inv s -> finished s = true -> (k < Z.to_nat chunks)%nat ->
  workers s !! k = Some (Done (offset k)) /\
  carry s !! k = Some (offset (S k)) /\
  load (output s) (size_out k) 2 = le_bytes 2 (stored_size k) /\
  load (output s) (data_out + offset k) (length (stored_bytes k))
  = stored_bytes k.
Proof.
  intros (Hc & Hw & Hall) Hf Hk.
  destruct (workers s !! k) as [p|] eqn:Hp.
  - destruct (finished_done s k p Hf Hp) as [offs ->].
    destruct (Hall k _ Hp) as (H1 & -> & H2 & H3). done.
  - apply lookup_ge_None in Hp. lia.
Qed.

Lemma h_encode_Some (sched : list nat) (output0 m : mem) (outsize : Z) :
  h_encode sched output0 = Some (m, outsize) ->
  let s := run sched (init output0) in
  inv s /\ finished s = true /\
  m = store_le (output s) 0 8 insize /\
  outsize = data_out + offset (Z.to_nat chunks).
Proof.
  intros He. simpl. unfold IABS.h_encode in He.
  pose proof (inv_run sched _ (inv_init output0)) as Hinv.
  destruct (finished (run sched (init output0))) eqn:Hf; [|done].
  unfold IABS.finish in He. pose proof chunks_pos as Hcp.
  destruct (Z.ltb_spec 0 chunks); [|lia].
  destruct (finished_chunk _ (Z.to_nat (chunks - 1)) Hinv Hf ltac:(lia))
    as (_ & Hcarry & _).
  rewrite Hcarry in He. simpl in He. injection He as <- <-.
  split; [exact Hinv|]. split; [done|]. split; [done|].
  replace (Z.to_nat chunks) with (S (Z.to_nat (chunks - 1))) by lia.
  done.
Qed.

Lemma length_size_table_upto (j : nat) :
  length (flat_map (fun k => le_bytes 2 (stored_size k)) (seq 0 j))
  = (2 * j)%nat.
Proof.
  induction j as [|j IH]; [done|].
  rewrite seq_S, flat_map_app, length_app, IH. simpl. lia.
Qed.

Lemma length_payload_upto (j : nat) :
  (j <= Z.to_nat chunks)%nat ->
  Z.of_nat (length (flat_map stored_bytes (seq 0 j))) = offset j.
Proof.
  induction j as [|j IH]; intros Hj; [done|].
  rewrite seq_S, flat_map_app, length_app, Nat2Z.inj_add, IH by lia.
  cbn [flat_map]. rewrite Nat.add_0_l, app_nil_r, length_stored_bytes by lia. done.
Qed.

Lemma load_size_table (m : mem) (j : nat) :
  (forall k, (k < j)%nat -> load m (size_out k) 2 = le_bytes 2 (stored_size k)) ->
  load m 8 (2 * j) = flat_map (fun k => le_bytes 2 (stored_size k)) (seq 0 j).
Proof.
  induction j as [|j IH]; intros Hall; [done|].
  replace (2 * S j)%nat with (2 * j + 2)%nat by lia.
  rewrite load_app, IH by (intros; apply Hall; lia).
  rewrite seq_S, flat_map_app. cbn [flat_map]. rewrite Nat.add_0_l, app_nil_r. f_equal.
  rewrite <- (Hall j) by lia. unfold size_out. f_equal. lia.
Qed.

Lemma load_payload (m : mem) (j : nat) :
  (j <= Z.to_nat chunks)%nat ->
  (forall k, (k < j)%nat ->
     load m (data_out + offset k) (length (stored_bytes k)) = stored_bytes k) ->
  load m data_out (Z.to_nat (offset j)) = flat_map stored_bytes (seq 0 j).
Proof.
  induction j as [|j IH]; intros Hj Hall; [done|].
  pose proof (offset_nonneg j ltac:(lia)).
  pose proof (length_stored_bytes j ltac:(lia)).
  simpl IABS.offset.
  replace (Z.to_nat (offset j + stored_size j))
    with (Z.to_nat (offset j) + length (stored_bytes j))%nat by lia.
  rewrite load_app, IH by (try intros; try apply Hall; lia).
  rewrite seq_S, flat_map_app. cbn [flat_map]. rewrite Nat.add_0_l, app_nil_r. f_equal.
  rewrite <- (Hall j) at 2 by lia. f_equal. lia.
Qed.

Lemma length_CompressedStream :
  Z.of_nat (length CompressedStream) = data_out + offset (Z.to_nat chunks).
Proof.
  pose proof chunks_pos.
  unfold IABS.CompressedStream, IABS.size_table, IABS.payload.
  rewrite !length_app, length_le_bytes, length_size_table_upto.
  rewrite !Nat2Z.inj_add, length_payload_upto by lia.
  unfold IABS.data_out. lia.
Qed.

(** Whatever the schedule, a completed [h_encode] leaves the stream of the
    layout in [output, output + outsize). *)
Lemma h_encode_stream (sched : list nat) (output0 m : mem) (outsize : Z) :
  h_encode sched output0 = Some (m, outsize) ->
  outsize = Z.of_nat (length CompressedStream) /\
  load m 0 (Z.to_nat outsize) = CompressedStream.
Proof.
  intros He. apply h_encode_Some in He as (Hinv & Hf & -> & ->).
  pose proof chunks_pos as Hcp.
  pose proof (offset_nonneg (Z.to_nat chunks) ltac:(lia)) as Hoff.
  rewrite length_CompressedStream. split; [done|].
  set (s := run sched (init output0)) in *.
  replace (Z.to_nat (data_out + offset (Z.to_nat chunks)))
    with (8 + (2 * Z.to_nat chunks + Z.to_nat (offset (Z.to_nat chunks))))%nat
    by (unfold IABS.data_out; lia).
  rewrite !load_app. unfold IABS.CompressedStream.
  apply (f_equal2 app); [|apply (f_equal2 app)].
  - apply load_store_le_same.
  - rewrite load_store_le_disjoint by (right; simpl; lia).
    apply load_size_table. intros k Hk.
    by destruct (finished_chunk s k Hinv Hf Hk) as (_ & _ & ? & _).
  - rewrite load_store_le_disjoint by (right; simpl; lia).
    replace (0 + Z.of_nat 8 + Z.of_nat (2 * Z.to_nat chunks)) with data_out
      by (unfold IABS.data_out; lia).
    apply load_payload; [done|]. intros k Hk.
    by destruct (finished_chunk s k Hinv Hf Hk) as (_ & _ & _ & ?).
Qed.

(** What a completed [h_encode] leaves for chunk [k]: the final phase of
    its worker, its carry slot, its entry of the size table and its window
    of the payload. *)
Lemma h_encode_chunk (sched : list nat) (output0 m : mem) (outsize : Z)
    (k : nat) :
  h_encode sched output0 = Some (m, outsize) ->
  (k < Z.to_nat chunks)%nat ->
  workers (run sched (init output0)) !! k = Some (Done (offset k)) /\
  carry (run sched (init output0)) !! k = Some (offset (S k)) /\
  le_value (load m (size_out k) 2) = stored_size k /\
  load m (data_out + offset k) (Z.to_nat (stored_size k)) = stored_bytes k.
Proof.
  intros He Hk. apply h_encode_Some in He as (Hinv & Hf & -> & ->).
  destruct (finished_chunk _ k Hinv Hf Hk) as (Hw & Hc & Ht & Hd).
  pose proof (stored_size_bounds k Hk) as Hb.
  pose proof (osize_bounds k Hk) as Ho.
  pose proof (offset_nonneg k ltac:(lia)).
  pose proof chunks_pos.
  split; [done|]. split; [done|]. split.
  - rewrite load_store_le_disjoint by (right; unfold size_out; lia).
    rewrite Ht. apply le_value_le_bytes_small.
    rewrite CS_value in Ho. simpl. lia.
  - rewrite load_store_le_disjoint by (right; unfold IABS.data_out; lia).
    rewrite <- (length_stored_bytes k Hk), Nat2Z.id. done.
Qed.

(** The prefix sums written as a sum. *)
Lemma offset_sum (k : nat) :
  offset k = foldr Z.add 0 (map stored_size (seq 0 k)).
Proof.
  induction k as [|k IH]; [done|].
  rewrite seq_S, map_app, foldr_app. simpl. rewrite IH.
  generalize (stored_size k). generalize (map stored_size (seq 0 k)).
  intros l z. induction l as [|x l IHl]; simpl; lia.
Qed.

(** ** The carry wait *)

(** A worker never goes back. *)
Lemma step_chunk_rank_mono (k : nat) (s : State) (p : Phase) :
  workers s !! k = Some p ->
  exists p', workers (step_chunk k s) !! k = Some p' /\
             (rank p <= rank p')%nat.
Proof.
  intros Hp.
  assert (k < length (workers s))%nat as Hlt by by eapply lookup_lt_Some.
  unfold IABS.step_chunk. rewrite Hp.
  destruct p; repeat case_match; simpl;
    rewrite ?list_lookup_insert_eq by done;
    (eexists; split; [first [reflexivity | exact Hp] | simpl; lia]).
Qed.

(** The wait of lines 110-116 ends with the value found in the slot of the
    predecessor, and that value is not the sentinel. *)
Lemma step_chunk_wait (k' : nat) (s : State) (offs : Z) :
  workers s !! S k' = Some Spinning ->
  workers (step_chunk (S k') s) !! S k' = Some (Ready offs) ->
  carry s !! k' = Some offs /\ offs <> 0.
Proof.
  intros Hp. unfold IABS.step_chunk. rewrite Hp.
  assert (S k' < length (workers s))%nat as Hlt by by eapply lookup_lt_Some.
  destruct (carry s !! k') as [v|]; [|by rewrite Hp].
  destruct (Z.eqb_spec v 0); [by rewrite Hp|].
  simpl. rewrite list_lookup_insert_eq by done. by intros [= ->].
Qed.

Lemma chained_init (output0 : mem) : chained (init output0).
Proof.
  intros k p Hp Hr. simpl in Hp. apply lookup_replicate in Hp as [-> _].
  simpl in Hr. lia.
Qed.

Lemma chained_step (k : nat) (s : State) :
  inv s -> chained s -> chained (step_chunk k s).
Proof.
  intros Hinv Hch j p Hp Hr. pose proof Hinv as (Hc & Hw & Hall).
  assert (exists q, workers s !! S j = Some q) as [q Hq].
  { apply lookup_lt_is_Some. apply lookup_lt_Some in Hp.
    by rewrite (proj2 (step_chunk_lengths k s)) in Hp. }
  assert (exists q', workers s !! j = Some q') as [q' Hq'].
  { apply lookup_lt_is_Some. apply lookup_lt_Some in Hq. lia. }
  assert (forall q0, workers s !! j = Some q0 -> (3 <= rank q0)%nat ->
            exists p', workers (step_chunk k s) !! j = Some p' /\
                       (3 <= rank p')%nat) as Hpred.
  { intros q0 Hq0 Hr0. destruct (decide (k = j)) as [->|Hne].
    - destruct (step_chunk_rank_mono j s q0 Hq0) as (p' & Hp' & Hle).
      exists p'. split; [done|lia].
    - exists q0. by rewrite step_chunk_workers_ne. }
  destruct (decide (2 <= rank q)%nat) as [Hq2|Hq2].
  { destruct (Hch j q Hq Hq2) as (q0 & Hq0 & Hr0). by eapply Hpred. }
  destruct (decide (k = S j)) as [->|Hne].
  - (* the worker leaves the wait in this very move *)
    assert (S j < length (workers s))%nat as Hlt by by eapply lookup_lt_Some.
    assert (q = Spinning) as ->.
    { destruct q; simpl in Hq2; try lia; [|done].
      revert Hp. unfold IABS.step_chunk. rewrite Hq. simpl.
      rewrite list_lookup_insert_eq by done.
      intros [= <-]. simpl in Hr. lia. }
    assert (exists offs, p = Ready offs) as [offs ->].
    { revert Hp. unfold IABS.step_chunk. rewrite Hq.
      repeat case_match; rewrite ?Hq; simpl;
        rewrite ?list_lookup_insert_eq by done;
        intros [= <-]; eauto; simpl in Hr; lia. }
    destruct (step_chunk_wait j s offs Hq Hp) as [Hcarry Hnz].
    apply (Hpred q' Hq'). specialize (Hall j q' Hq').
    destruct q'; simpl in *; destruct_and?; try lia; congruence.
  - rewrite step_chunk_workers_ne in Hp by done.
    rewrite Hq in Hp. injection Hp as <-. lia.
Qed.

Lemma chained_run (sched : list nat) (s : State) :
  inv s -> chained s -> chained (run sched s).
Proof.
  revert s. induction sched as [|k sched IH]; intros s Hinv Hch; [done|].
  simpl. apply IH; [by apply inv_step | by apply chained_step].
Qed.

(** ** Progress *)

Section Progress.

(** The stage never reports success with nothing written. *)
Hypothesis Hstage : stage_nonempty h_BIT_4.

Lemma stored_size_pos (k : nat) :
  (k < Z.to_nat chunks)%nat -> 0 < stored_size k.
Proof.
  intros Hk. pose proof (osize_bounds k Hk).
  unfold IABS.stored_size. destruct (compressed k) eqn:Hc; [|lia].
  apply compressed_true in Hc as [Hg _]. revert Hg.
  unfold IABS.encode_chunk.
  destruct (h_BIT_4 (load_chunk k)) as [g o] eqn:He. simpl. intros ->.
  pose proof (Hstage _ _ (load_chunk_nonempty k Hk) He).
  destruct o; simpl; [done|lia].
Qed.

Lemma offset_lt (j k : nat) :
  (j < k <= Z.to_nat chunks)%nat -> offset j < offset k.
Proof.
  intros Hjk. pose proof (offset_mono (S j) k ltac:(lia)).
  pose proof (stored_size_pos j ltac:(lia)). simpl in *. lia.
Qed.

Lemma offset_pos (k : nat) :
  (0 < k <= Z.to_nat chunks)%nat -> 0 < offset k.
Proof. intros Hk. apply (offset_lt 0 k). lia. Qed.

(** A worker whose predecessor has published moves on. *)
Lemma step_chunk_rank (k : nat) (s : State) (p : Phase) :
  inv s -> workers s !! k = Some p ->
  match k with
  | O => True
  | S k' => exists p', workers s !! k' = Some p' /\ (3 <= rank p')%nat
  end ->
  exists p', workers (step_chunk k s) !! k = Some p' /\
             rank p' = Nat.min 4 (S (rank p)).
Proof.
  intros (Hc & Hw & Hall) Hp Hpred.
  assert (k < length (workers s))%nat as Hlt by by eapply lookup_lt_Some.
  destruct p as [| |offs|offs|offs].
  - unfold IABS.step_chunk. rewrite Hp. simpl.
    rewrite list_lookup_insert_eq by done. eauto.
  - unfold IABS.step_chunk. rewrite Hp. destruct k as [|k'].
    + simpl. rewrite list_lookup_insert_eq by done. eauto.
    + destruct Hpred as (p' & Hp' & Hr).
      pose proof (Hall k' p' Hp') as Hk'.
      pose proof (offset_pos (S k') ltac:(lia)) as Ho.
      assert (carry s !! k' = Some (offset (S k'))) as ->.
      { destruct p'; simpl in Hr; try lia; by destruct Hk'. }
      destruct (Z.eqb_spec (offset (S k')) 0); [lia|].
      simpl. rewrite list_lookup_insert_eq by done. eauto.
  - rewrite (step_ready k offs s Hp). simpl.
    rewrite list_lookup_insert_eq by done. eauto.
  - destruct (step_published k offs s Hp) as (src & -> & _). simpl.
    rewrite list_lookup_insert_eq by done. eauto.
  - unfold IABS.step_chunk. rewrite Hp. eauto.
Qed.

(** Four moves take an iteration from its start to its end. *)
Lemma run_iteration (k : nat) (s : State) :
  inv s -> workers s !! k = Some Idle ->
  match k with
  | O => True
  | S k' => exists p', workers s !! k' = Some p' /\ (3 <= rank p')%nat
  end ->
  let s' := run [k; k; k; k] s in
  inv s' /\
  (exists p, workers s' !! k = Some p /\ rank p = 4%nat) /\
  (forall k', k' <> k -> workers s' !! k' = workers s !! k').
Proof.
  intros Hinv Hp Hpred. simpl.
  assert (forall s1, (forall k', k' <> k -> workers s1 !! k' = workers s !! k') ->
            match k with
            | O => True
            | S k' => exists p', workers s1 !! k' = Some p' /\ (3 <= rank p')%nat
            end) as Hkeep.
  { intros s1 Hs1. destruct k as [|k']; [done|]. by rewrite Hs1 by lia. }
  assert (forall s1, (forall k', k' <> k -> workers s1 !! k' = workers s !! k') ->
            forall k', k' <> k ->
            workers (step_chunk k s1) !! k' = workers s !! k') as Hother.
  { intros s1 Hs1 k' Hne. rewrite step_chunk_workers_ne by done. by apply Hs1. }
  set (s1 := step_chunk k s).
  destruct (step_chunk_rank k s _ Hinv Hp Hpred) as (p1 & Hp1 & Hr1).
  pose proof (inv_step k s Hinv) as Hinv1.
  pose proof (Hother s (fun _ _ => eq_refl)) as Ho1. fold s1 in Hp1, Hinv1, Ho1.
  set (s2 := step_chunk k s1).
  destruct (step_chunk_rank k s1 _ Hinv1 Hp1 (Hkeep s1 Ho1)) as (p2 & Hp2 & Hr2).
  pose proof (inv_step k s1 Hinv1) as Hinv2.
  pose proof (Hother s1 Ho1) as Ho2. fold s2 in Hp2, Hinv2, Ho2.
  set (s3 := step_chunk k s2).
  destruct (step_chunk_rank k s2 _ Hinv2 Hp2 (Hkeep s2 Ho2)) as (p3 & Hp3 & Hr3).
  pose proof (inv_step k s2 Hinv2) as Hinv3.
  pose proof (Hother s2 Ho2) as Ho3. fold s3 in Hp3, Hinv3, Ho3.
  destruct (step_chunk_rank k s3 _ Hinv3 Hp3 (Hkeep s3 Ho3)) as (p4 & Hp4 & Hr4).
  split; [by apply inv_step|]. split; [|by apply Hother].
  exists p4. split; [done|]. simpl in Hr1. lia.
Qed.

Lemma run_app (l1 l2 : list nat) (s : State) :
  run (l1 ++ l2) s = run l2 (run l1 s).
Proof. unfold IABS.run. apply fold_left_app. Qed.

(** The single-thread schedule, after [j] iterations. *)
Lemma run_sequential_upto (j : nat) (output0 : mem) :
  (j <= Z.to_nat chunks)%nat ->
  let s := run (flat_map (fun k => [k; k; k; k]) (seq 0 j)) (init output0) in
  inv s /\
  (forall k, (k < j)%nat -> exists p, workers s !! k = Some p /\ rank p = 4%nat) /\
  (forall k, (j <= k < Z.to_nat chunks)%nat -> workers s !! k = Some Idle).
Proof.
  induction j as [|j IH]; intros Hj; cbv zeta.
  - split; [apply inv_init|]. split; [intros; lia|].
    intros k Hk. simpl. apply lookup_replicate. split; [done|lia].
  - specialize (IH ltac:(lia)) as (Hinv & Hdone & Hidle). cbv zeta in *.
    rewrite seq_S, flat_map_app, run_app. cbn [flat_map]. rewrite app_nil_r.
    rewrite Nat.add_0_l.
    set (s := run (flat_map (fun k => [k; k; k; k]) (seq 0 j)) (init output0))
      in *.
    destruct (run_iteration j s Hinv (Hidle j ltac:(lia))) as (Hi & Hd & Ho).
    { destruct j as [|j']; [done|].
      destruct (Hdone j' ltac:(lia)) as (p & Hp & Hr). exists p. split; [done|lia]. }
    split; [done|]. split.
    + intros k Hk. destruct (decide (k = j)) as [->|Hne]; [done|].
      rewrite Ho by done. apply Hdone. lia.
    + intros k Hk. rewrite Ho by lia. apply Hidle. lia.
Qed.

(** [h_encode] completes under the single-thread schedule. *)
Lemma h_encode_sequential (output0 : mem) :
  exists m outsize, h_encode sequential output0 = Some (m, outsize).
Proof.
  destruct (run_sequential_upto (Z.to_nat chunks) output0 ltac:(lia))
    as (Hinv & Hdone & _).
  unfold IABS.h_encode, IABS.sequential.
  set (s := run _ (init output0)) in *.
  assert (finished s = true) as Hf.
  { unfold finished. apply forallb_forall. intros p Hp.
    apply list_elem_of_In, list_elem_of_lookup in Hp as [k Hk].
    destruct (Hdone k) as (p' & Hp' & Hr).
    { apply lookup_lt_Some in Hk. destruct Hinv as (_ & Hw & _). lia. }
    rewrite Hk in Hp'. injection Hp' as <-. by destruct p. }
  rewrite Hf. unfold IABS.finish. pose proof chunks_pos as Hcp.
  destruct (Z.ltb_spec 0 chunks); [|lia].
  destruct (finished_chunk s (Z.to_nat (chunks - 1)) Hinv Hf ltac:(lia))
    as (_ & -> & _).
  simpl. eauto.
Qed.

Lemma first_unfinished (l : list Phase) :
  forallb is_done l = false ->
  exists k p, l !! k = Some p /\ is_done p = false /\
    forall j, (j < k)%nat -> exists q, l !! j = Some q /\ is_done q = true.
Proof.
  induction l as [|q l IH]; [done|]. simpl.
  destruct (is_done q) eqn:Hq; simpl.
  - intros Hl. destruct (IH Hl) as (k & p & Hk & Hp & Hbefore).
    exists (S k), p. split; [done|]. split; [done|].
    intros [|j] Hj; [eauto|]. apply Hbefore. lia.
  - intros _. exists 0%nat, q. split; [done|]. split; [done|]. intros; lia.
Qed.

(** X13. No deadlock: in every state the workers can reach, as long as
    some iteration is unfinished, the first unfinished one can move on: every
    iteration before it is done, it is not, and its next move takes its
    worker one phase further.  The stage never reports success with nothing
    written. *)
Lemma progress (sched : list nat) (output0 : mem) :
  let s := run sched (init output0) in
  finished s = false ->
  exists k p p',
    workers s !! k = Some p /\ is_done p = false /\
    (forall j, (j < k)%nat ->
       exists q, workers s !! j = Some q /\ is_done q = true) /\
    workers (step_chunk k s) !! k = Some p' /\
    rank p' = S (rank p).
Proof.
  cbv zeta. intros Hf.
  pose proof (inv_run sched _ (inv_init output0)) as Hinv.
  destruct (first_unfinished _ Hf) as (k & p & Hk & Hp & Hbefore).
  destruct (step_chunk_rank k _ p Hinv Hk) as (p' & Hp' & Hr).
  { destruct k as [|k']; [done|].
    destruct (Hbefore k' ltac:(lia)) as (q & Hq & Hd).
    exists q. split; [done|]. destruct q; simpl in *; done || lia. }
  exists k, p, p'. split; [done|]. split; [done|]. split; [done|].
  split; [done|]. destruct p; simpl in *; done || lia.
Qed.

End Progress.

(** ** Decoding the stream *)

Section RoundTrip.

Context (h_iBIT_4 : list byte -> option (list byte)).

Hypothesis Hinverse : stage_inverse h_BIT_4 h_iBIT_4.

Lemma decode_chunks_S (originalSize : Z) (table pl : list byte) (k todo : nat) :
  decode_chunks h_iBIT_4 originalSize table pl k (S todo)
  = let originalChunkSize := IABS.osize originalSize k in
    let storedSize := le_value (take 2 table) in
    if (originalChunkSize <? storedSize)
       || (Z.of_nat (length pl) <? storedSize)
    then None
    else
      let stored := take (Z.to_nat storedSize) pl in
      chunk ← (if storedSize =? originalChunkSize
               then Some stored
               else r ← h_iBIT_4 stored;
                    if Z.of_nat (length r) =? originalChunkSize
                    then Some r else None);
      rest ← decode_chunks h_iBIT_4 originalSize (drop 2 table)
               (drop (Z.to_nat storedSize) pl) (S k) todo;
      Some (chunk ++ rest).
Proof. reflexivity. Qed.

(** The inverse stage gives back the chunk the stage was handed. *)
Lemma inverse_stored_bytes (k : nat) :
  (k < Z.to_nat chunks)%nat -> compressed k = true ->
  h_iBIT_4 (stored_bytes k) = Some (load_chunk k).
Proof.
  intros Hk Hc. unfold IABS.stored_bytes. rewrite Hc.
  apply compressed_true in Hc as [Hg _]. revert Hg.
  rewrite encode_chunk_csize, Nat2Z.id, firstn_all.
  unfold IABS.encode_chunk.
  destruct (h_BIT_4 (load_chunk k)) as [g o] eqn:He. simpl. intros ->.
  by apply Hinverse.
Qed.

Lemma decode_chunks_stream (todo j : nat) :
  (j + todo <= Z.to_nat chunks)%nat ->
  decode_chunks h_iBIT_4 insize
    (flat_map (fun k => le_bytes 2 (stored_size k)) (seq j todo))
    (flat_map stored_bytes (seq j todo)) j todo
  = Some (flat_map load_chunk (seq j todo)).
Proof.
  revert j. induction todo as [|todo IH]; intros j Hj; [done|].
  assert (Hk : (j < Z.to_nat chunks)%nat) by lia.
  pose proof (stored_size_bounds j Hk) as Hb.
  pose proof (osize_bounds j Hk) as Ho.
  pose proof (length_stored_bytes j Hk) as Hl.
  rewrite decode_chunks_S. cbn [seq flat_map]. cbv zeta.
  rewrite (take_app_length' (le_bytes 2 (stored_size j))) by done.
  rewrite (drop_app_length' (le_bytes 2 (stored_size j))) by done.
  rewrite le_value_le_bytes_small by (rewrite CS_value in Ho; simpl; lia).
  rewrite (take_app_length' (stored_bytes j)) by lia.
  rewrite (drop_app_length' (stored_bytes j)) by lia.
  rewrite IH by lia.
  fold (osize j).
  destruct (Z.ltb_spec (osize j) (stored_size j)); [lia|].
  destruct (Z.ltb_spec
              (Z.of_nat (length (stored_bytes j ++
                 flat_map stored_bytes (seq (S j) todo))))
              (stored_size j)) as [Hshort|_].
  { rewrite length_app in Hshort. lia. }
  simpl orb. cbv iota.
  destruct (compressed j) eqn:Hc.
  - pose proof Hc as Hc'. apply compressed_true in Hc' as [_ Hlt].
    assert (stored_size j = csize (encode_chunk j)) as Hs.
    { unfold IABS.stored_size. by rewrite Hc. }
    destruct (Z.eqb_spec (stored_size j) (osize j)); [lia|].
    rewrite (inverse_stored_bytes j Hk Hc). simpl.
    rewrite (length_load_chunk j Hk), Z.eqb_refl. done.
  - assert (stored_size j = osize j) as ->.
    { unfold IABS.stored_size. by rewrite Hc. }
    rewrite Z.eqb_refl. simpl. by rewrite (stored_bytes_raw j Hc).
Qed.

(** The stream of the layout decodes to the input. *)
Lemma decode_CompressedStream :
  insize < 2 ^ 63 ->
  decode h_iBIT_4 CompressedStream = Some input.
Proof.
  intros Hfit. pose proof chunks_pos as Hcp.
  unfold decode, IABS.CompressedStream.
  rewrite (take_app_length' (le_bytes 8 insize)) by done.
  rewrite le_value_le_bytes_small by (simpl; lia).
  rewrite (drop_app_length' (le_bytes 8 insize)) by done.
  assert (length size_table = (2 * Z.to_nat chunks)%nat) as Hlt.
  { unfold IABS.size_table. apply length_size_table_upto. }
  rewrite (take_app_length' size_table) by done.
  rewrite (app_assoc (le_bytes 8 insize)).
  rewrite (drop_app_length' (le_bytes 8 insize ++ size_table))
    by (rewrite length_app, length_le_bytes, Hlt; lia).
  unfold IABS.size_table, IABS.payload.
  rewrite decode_chunks_stream by lia. by rewrite chunks_partition.
Qed.

End RoundTrip.

(** ** The claims about [h_encode] *)

(** C1. Round trip: for a non-empty input buffer whose size fits
    [long long], [h_encode] completes (the single-thread schedule is one
    way), and under every schedule that lets it complete, decoding the
    [outsize] bytes it left in [output] gives back the input exactly.  The
    decoder is the contract of section 4.5; the stage never reports success
    with nothing written and has an inverse. *)
Theorem round_trip (h_iBIT_4 : list byte -> option (list byte))
    (output0 : mem) :
  stage_nonempty h_BIT_4 ->
  stage_inverse h_BIT_4 h_iBIT_4 ->
  insize < 2 ^ 63 ->
  (exists m outsize, h_encode sequential output0 = Some (m, outsize)) /\
  (forall sched m outsize,
     h_encode sched output0 = Some (m, outsize) ->
     decode h_iBIT_4 (load m 0 (Z.to_nat outsize)) = Some input).
Proof.
  intros Hstage Hinverse Hfit. split.
  - by apply h_encode_sequential.
  - intros sched m outsize He.
    destruct (h_encode_stream sched output0 m outsize He) as [_ ->].
    by apply decode_CompressedStream.
Qed.

(** C2. Non-expansion per chunk: [h_encode] completes (the single-thread
    schedule is one way, the stage never reporting success with nothing
    written), and under every schedule that lets it complete the size found
    in the size table for chunk [chunkID] is at most the original size of
    the chunk, [min(CS, insize - chunkID * CS)]. *)
Theorem non_expansion_per_chunk (output0 : mem) :
  (stage_nonempty h_BIT_4 ->
   exists m outsize, h_encode sequential output0 = Some (m, outsize)) /\
  (forall sched m outsize chunkID,
     h_encode sched output0 = Some (m, outsize) ->
     (chunkID < Z.to_nat chunks)%nat ->
     le_value (load m (size_out chunkID) 2)
     <= Z.min CS (insize - Z.of_nat chunkID * CS)).
Proof.
  split; [intros Hstage; by apply h_encode_sequential|].
  intros sched m outsize chunkID He Hk.
  destruct (h_encode_chunk sched output0 m outsize chunkID He Hk)
    as (_ & _ & -> & _).
  apply (stored_size_bounds chunkID Hk).
Qed.

(** C3. Contiguity and ordering: [h_encode] completes (the single-thread
    schedule is one way), and under every schedule that lets it complete,
    chunk 0 starts at payload offset 0; the base offset of chunk [i + 1] is the base offset of chunk
    [i] plus the stored size of chunk [i]; [carry[i]] is the sum of the
    stored sizes of chunks [0..i]; the offsets are strictly increasing; the
    bytes of chunk [i] lie at its offset, and the windows put together are
    the payload, without gap or overlap.  The stage never reports success
    with nothing written. *)
Theorem payload_contiguity (output0 : mem) :
  stage_nonempty h_BIT_4 ->
  (exists m outsize, h_encode sequential output0 = Some (m, outsize)) /\
  (forall sched m outsize,
     h_encode sched output0 = Some (m, outsize) ->
     let s := run sched (init output0) in
     let storedSize := fun i => le_value (load m (size_out i) 2) in
     offset 0 = 0 /\
     (forall i, (i < Z.to_nat chunks)%nat ->
        workers s !! i = Some (Done (offset i)) /\
        offset (S i) = offset i + storedSize i /\
        carry s !! i = Some (offset (S i)) /\
        carry s !! i = Some (foldr Z.add 0 (map storedSize (seq 0 (S i)))) /\
        offset i < offset (S i) /\
        load m (data_out + offset i) (Z.to_nat (storedSize i))
        = stored_bytes i) /\
     load m data_out (Z.to_nat (offset (Z.to_nat chunks))) = payload).
Proof.
  intros Hstage. split; [by apply h_encode_sequential|].
  intros sched m outsize He. cbv zeta. split; [done|]. split.
  - intros i Hi.
    destruct (h_encode_chunk sched output0 m outsize i He Hi)
      as (Hw & Hc & Hs & Hd).
    rewrite Hs. split; [done|]. split; [done|]. split; [done|]. split.
    + rewrite Hc. f_equal. rewrite offset_sum. f_equal.
      apply map_ext_in. intros j Hj. apply in_seq in Hj.
      by destruct (h_encode_chunk sched output0 m outsize j He ltac:(lia))
        as (_ & _ & -> & _).
    + split; [|done]. apply (offset_lt Hstage). lia.
  - apply load_payload; [done|]. intros k Hk.
    destruct (h_encode_chunk sched output0 m outsize k He Hk)
      as (_ & _ & _ & Hd).
    by rewrite <- (length_stored_bytes k Hk), Nat2Z.id in Hd.
Qed.

(** C4. Fallback-raw policy: [h_encode] completes (the single-thread
    schedule is one way, the stage never reporting success with nothing
    written), and under every schedule that lets it complete, a chunk for which the stage
    reported success with a size strictly smaller than the original one has
    the compressed size in the table and the compressed bytes in the
    payload; a chunk for which the stage reported failure, or a size equal
    or larger, has the original size and the original bytes, the same in
    both cases; and the table shows a size below the original one exactly
    for the chunks of the first kind. *)
Theorem fallback_raw_policy (output0 : mem) :
  (stage_nonempty h_BIT_4 ->
   exists m outsize, h_encode sequential output0 = Some (m, outsize)) /\
  (forall sched m outsize chunkID,
     h_encode sched output0 = Some (m, outsize) ->
     (chunkID < Z.to_nat chunks)%nat ->
     let e := encode_chunk chunkID in
     let storedSize := le_value (load m (size_out chunkID) 2) in
     let stored n := load m (data_out + offset chunkID) (Z.to_nat n) in
     (good e = true /\ csize e < osize chunkID ->
        storedSize = csize e /\
        stored (csize e) = take (Z.to_nat (csize e)) (out e)) /\
     (good e = false \/ osize chunkID <= csize e ->
        storedSize = osize chunkID /\
        stored (osize chunkID)
        = take (Z.to_nat (osize chunkID))
            (drop (Z.to_nat (base chunkID)) input)) /\
     (storedSize < osize chunkID <->
        good e = true /\ csize e < osize chunkID)).
Proof.
  split; [intros Hstage; by apply h_encode_sequential|].
  intros sched m outsize chunkID He Hk. cbv zeta.
  destruct (h_encode_chunk sched output0 m outsize chunkID He Hk)
    as (_ & _ & Hs & Hd).
  rewrite Hs. revert Hd.
  unfold IABS.stored_size, IABS.stored_bytes.
  destruct (compressed chunkID) eqn:Hc; intros Hd.
  - pose proof Hc as Hc'. apply compressed_true in Hc'.
    split; [intros _; split; [reflexivity|exact Hd]|]. split; [|tauto].
    intros Hn. apply compressed_false in Hn. congruence.
  - pose proof Hc as Hc'. apply compressed_false in Hc'.
    split; [|split; [intros _; split; [reflexivity|exact Hd]|]].
    + intros Hy. apply compressed_true in Hy. congruence.
    + split; [lia|]. intros Hy. apply compressed_true in Hy. congruence.
Qed.

(** C5. The chunk planner: the number of chunks is the ceiling of
    [insize / CS]; chunk [chunkID] covers the bytes of the input from
    [chunkID * CS] up to [min((chunkID + 1) * CS, insize)]; the last chunk
    has [insize - (chunks - 1) * CS] bytes; and the chunks put together are
    the input. *)
Theorem chunk_planner :
  chunks = ceil_div insize CS /\
  ((chunks - 1) * CS < insize <= chunks * CS) /\
  (forall chunkID, (chunkID < Z.to_nat chunks)%nat ->
     base chunkID = Z.of_nat chunkID * CS /\
     base chunkID + osize chunkID
     = Z.min ((Z.of_nat chunkID + 1) * CS) insize /\
     0 < osize chunkID /\
     Z.of_nat (length (load_chunk chunkID)) = osize chunkID /\
     load_chunk chunkID
     = take (Z.to_nat (osize chunkID)) (drop (Z.to_nat (base chunkID)) input)) /\
  osize (Z.to_nat (chunks - 1)) = insize - (chunks - 1) * CS /\
  flat_map load_chunk (seq 0 (Z.to_nat chunks)) = input.
Proof.
  split; [apply chunks_ceil|]. split; [apply chunks_bounds|]. split.
  - intros k Hk. split; [done|]. split.
    + rewrite base_osize. f_equal. lia.
    + split; [apply (osize_bounds k Hk)|].
      split; [apply (length_load_chunk k Hk)|done].
  - split; [apply osize_last | apply chunks_partition].
Qed.

(** C6. The size and the layout of the stream: [h_encode] completes (the
    single-thread schedule is one way, the stage never reporting success
    with nothing written), and under every schedule that lets it complete
    [outsize] is
    [8 + 2 * chunks] plus the sum of the stored sizes, and it is the address
    of [data_out[carry[chunks - 1]]]; the first 8 bytes of the output hold
    [insize], then comes the table of 16-bit sizes in chunk order, then the
    payload. *)
Theorem stream_layout (output0 : mem) :
  (stage_nonempty h_BIT_4 ->
   exists m outsize, h_encode sequential output0 = Some (m, outsize)) /\
  (forall sched m outsize,
     h_encode sched output0 = Some (m, outsize) ->
     let n := Z.to_nat chunks in
     outsize = 8 + 2 * chunks + foldr Z.add 0 (map stored_size (seq 0 n)) /\
     (exists last,
        carry (run sched (init output0)) !! (n - 1)%nat = Some last /\
        outsize = data_out + last) /\
     load m 0 8 = le_bytes 8 insize /\
     (insize < 2 ^ 63 -> le_value (load m 0 8) = insize) /\
     (forall chunkID, (chunkID < n)%nat ->
        le_value (load m (8 + 2 * Z.of_nat chunkID) 2)
        = stored_size chunkID) /\
     load m 8 (2 * n) = size_table /\
     load m (8 + 2 * chunks) (Z.to_nat (outsize - (8 + 2 * chunks)))
     = payload /\
     load m 0 (Z.to_nat outsize) = le_bytes 8 insize ++ size_table ++ payload).
Proof.
  split; [intros Hstage; by apply h_encode_sequential|].
  intros sched m outsize He. cbv zeta. pose proof chunks_pos as Hcp.
  pose proof (h_encode_stream sched output0 m outsize He) as [Hlen Hstream].
  pose proof (offset_nonneg (Z.to_nat chunks) ltac:(lia)) as Hoff.
  assert (outsize = data_out + offset (Z.to_nat chunks)) as Hout.
  { by rewrite Hlen, length_CompressedStream. }
  assert (length size_table = (2 * Z.to_nat chunks)%nat) as Hlt.
  { unfold IABS.size_table. apply length_size_table_upto. }
  assert (Z.of_nat (length payload) = offset (Z.to_nat chunks)) as Hlp.
  { unfold IABS.payload. by apply length_payload_upto. }
  assert (Z.to_nat outsize
          = (8 + (2 * Z.to_nat chunks + length payload))%nat) as Hsplit.
  { rewrite Hout. unfold IABS.data_out. lia. }
  rewrite Hsplit, !load_app in Hstream.
  unfold IABS.CompressedStream in Hstream.
  apply app_inj_1 in Hstream as [Hhead Hrest];
    [|by rewrite length_load, length_le_bytes].
  apply app_inj_1 in Hrest as [Htable Hpayload];
    [|by rewrite length_load, Hlt].
  split; [|split; [|split; [|split; [|split; [|split; [|split]]]]]].
  - rewrite Hout, <- offset_sum. unfold IABS.data_out. lia.
  - destruct (h_encode_chunk sched output0 m outsize
                (Z.to_nat chunks - 1) He ltac:(lia)) as (_ & Hc & _).
    replace (S (Z.to_nat chunks - 1)) with (Z.to_nat chunks) in Hc by lia.
    eauto.
  - done.
  - intros Hfit. rewrite Hhead. apply le_value_le_bytes_small. simpl. lia.
  - intros k Hk.
    by destruct (h_encode_chunk sched output0 m outsize k He Hk)
      as (_ & _ & ? & _).
  - rewrite <- Htable. f_equal.
  - rewrite <- Hpayload. f_equal; [lia|].
    rewrite Hout. unfold IABS.data_out. lia.
  - rewrite Hsplit, !load_app, Hhead, Htable, Hpayload. done.
Qed.

(** C7. The sentinel of the carry chain.  In every state the workers can
    reach: a slot holds a value strictly greater than 0 once its worker has
    published, and 0 exactly as long as it has not; a worker of a chunk
    other than the first that is past the wait has a predecessor whose slot
    holds a non-zero value; and the wait itself ends only with the non-zero
    value read from that slot.  The stage never reports success with
    nothing written. *)
Theorem carry_sentinel (sched : list nat) (output0 : mem) (k : nat)
    (p : Phase) :
  stage_nonempty h_BIT_4 ->
  let s := run sched (init output0) in
  workers s !! k = Some p ->
  ((3 <= rank p)%nat -> exists v, carry s !! k = Some v /\ 0 < v) /\
  (carry s !! k = Some 0 <-> (rank p < 3)%nat) /\
  (forall k', k = S k' -> (2 <= rank p)%nat ->
     exists v, carry s !! k' = Some v /\ 0 < v) /\
  (forall k' offs, k = S k' -> p = Spinning ->
     workers (step_chunk k s) !! k = Some (Ready offs) ->
     carry s !! k' = Some offs /\ offs <> 0).
Proof.
  intros Hstage. cbv zeta. intros Hp.
  pose proof (inv_run sched _ (inv_init output0)) as Hinv.
  pose proof (chained_run sched _ (inv_init output0) (chained_init output0))
    as Hch.
  set (s := run sched (init output0)) in *.
  pose proof Hinv as (Hc & Hw & Hall).
  assert (forall j q, workers s !! j = Some q -> (3 <= rank q)%nat ->
            exists v, carry s !! j = Some v /\ 0 < v) as Hpub.
  { intros j q Hq Hr. exists (offset (S j)).
    assert (j < Z.to_nat chunks)%nat by (apply lookup_lt_Some in Hq; lia).
    split; [|apply (offset_pos Hstage); lia].
    specialize (Hall j q Hq).
    destruct q; simpl in Hr; try lia; by destruct Hall. }
  split; [by apply Hpub|]. split; [|split].
  - specialize (Hall k p Hp). split.
    + intros H0. destruct (decide (rank p < 3)%nat) as [|Hge]; [done|].
      destruct (Hpub k p Hp ltac:(lia)) as (v & Hv & Hvpos).
      rewrite Hv in H0. injection H0 as ->. lia.
    + intros Hr. destruct p; simpl in Hr; try lia; simpl in Hall;
        by destruct_and?.
  - intros k' -> Hr. destruct (Hch k' p Hp Hr) as (p' & Hp' & Hr').
    by eapply Hpub.
  - intros k' offs -> -> Hstep. by apply step_chunk_wait.
Qed.

(** C9. A chunk stored raw is copied from the input: [h_encode] completes
    (the single-thread schedule is one way, the stage never reporting
    success with nothing written), and under every schedule that lets it
    complete, when
    the stage reported failure or a size not smaller than the original one
    for a chunk, the window of the chunk in the payload holds the bytes of
    the input at [base, base + osize), whatever the stage left in the
    scratch buffer [out]. *)
Theorem raw_from_input (output0 : mem) :
  (stage_nonempty h_BIT_4 ->
   exists m outsize, h_encode sequential output0 = Some (m, outsize)) /\
  (forall sched m outsize chunkID,
     h_encode sched output0 = Some (m, outsize) ->
     (chunkID < Z.to_nat chunks)%nat ->
     good (encode_chunk chunkID) = false \/
       osize chunkID <= csize (encode_chunk chunkID) ->
     load m (data_out + offset chunkID) (Z.to_nat (osize chunkID))
     = take (Z.to_nat (osize chunkID)) (drop (Z.to_nat (base chunkID)) input)).
Proof.
  split; [intros Hstage; by apply h_encode_sequential|].
  intros sched m outsize chunkID He Hk Hraw. apply compressed_false in Hraw.
  destruct (h_encode_chunk sched output0 m outsize chunkID He Hk)
    as (_ & _ & _ & Hd).
  revert Hd. unfold IABS.stored_size, IABS.stored_bytes. by rewrite Hraw.
Qed.

(** ** Further properties of [h_encode] *)

(** Address [a] lies in neither window of chunk [k]. *)
Local Abbreviation untouched_by a k :=
  ((a < size_out k \/ size_out k + 2 <= a) /\
   (a < data_out + offset k \/ data_out + offset (S k) <= a)).

Lemma load_eq_at (m m' : mem) (a : Z) (n i : nat) :
  load m a n = load m' a n -> (i < n)%nat ->
  m (a + Z.of_nat i) = m' (a + Z.of_nat i).
Proof.
  intros Heq Hi. apply (f_equal (fun l => l !! i)) in Heq.
  rewrite !lookup_load in Heq by done. by injection Heq.
Qed.

(** A finished iteration stays finished. *)
Lemma done_step (k j : nat) (s : State) (offs : Z) :
  workers s !! j = Some (Done offs) ->
  workers (step_chunk k s) !! j = Some (Done offs).
Proof.
  intros Hj. destruct (decide (k = j)) as [->|Hne].
  - unfold IABS.step_chunk. by rewrite Hj.
  - by rewrite step_chunk_workers_ne.
Qed.

Lemma done_run (sched : list nat) (j : nat) (s : State) (offs : Z) :
  workers s !! j = Some (Done offs) ->
  workers (run sched s) !! j = Some (Done offs).
Proof.
  revert s. induction sched as [|k sched IH]; intros s Hj; [done|].
  simpl. apply IH. by apply done_step.
Qed.

Lemma rank_mono_run (sched : list nat) (j : nat) (s : State) (p : Phase) :
  workers s !! j = Some p ->
  exists p', workers (run sched s) !! j = Some p' /\ (rank p <= rank p')%nat.
Proof.
  revert s p. induction sched as [|k sched IH]; intros s p Hj; [eauto|].
  simpl. destruct (decide (k = j)) as [->|Hne].
  - destruct (step_chunk_rank_mono j s p Hj) as (p1 & Hp1 & Hle1).
    destruct (IH _ _ Hp1) as (p' & Hp' & Hle). exists p'. split; [done|lia].
  - apply IH. by rewrite step_chunk_workers_ne.
Qed.

(** A move changes the output only inside the windows of the chunk it
    stores. *)
Lemma step_chunk_untouched (k : nat) (s : State) (a : Z) :
  inv s ->
  (forall p, workers (step_chunk k s) !! k = Some p -> is_done p = true ->
             untouched_by a k) ->
  output (step_chunk k s) a = output s a.
Proof.
  intros (Hc & Hw & Hall) Hout.
  destruct (workers s !! k) as [p|] eqn:Hp;
    [|by unfold IABS.step_chunk; rewrite Hp].
  assert (k < length (workers s))%nat as Hlt by by eapply lookup_lt_Some.
  destruct p as [| |offs|offs|offs].
  - unfold IABS.step_chunk. by rewrite Hp.
  - unfold IABS.step_chunk. rewrite Hp. by repeat case_match.
  - by rewrite (step_ready k offs s Hp).
  - destruct (step_published k offs s Hp) as (src & Hstep & _).
    destruct (Hall k _ Hp) as [_ ->].
    rewrite Hstep in Hout |- *.
    destruct (Hout (Done (offset k))) as [Hsz Hdt]; [|done|].
    { simpl. by rewrite list_lookup_insert_eq. }
    simpl in Hdt. simpl. rewrite memcpy_outside by lia.
    unfold store_le. apply memcpy_outside. lia.
  - unfold IABS.step_chunk. by rewrite Hp.
Qed.

Lemma run_untouched (sched : list nat) (s : State) (a : Z) :
  inv s ->
  (forall j p, workers (run sched s) !! j = Some p -> is_done p = true ->
               untouched_by a j) ->
  output (run sched s) a = output s a.
Proof.
  revert s. induction sched as [|k sched IH]; intros s Hinv Hout; [done|].
  simpl in *. rewrite IH by (done || by apply inv_step).
  apply step_chunk_untouched; [done|]. intros p Hp Hd.
  destruct p; try done. apply (Hout k (Done offs)); [|done].
  by apply done_run.
Qed.

(** The stored sizes of the first [j] chunks add up to no more than the
    bytes of the input they cover. *)
Lemma offset_le_base (j : nat) :
  (j <= Z.to_nat chunks)%nat -> offset j <= Z.min (Z.of_nat j * CS) insize.
Proof.
  induction j as [|j IH]; intros Hj; [simpl; lia|].
  specialize (IH ltac:(lia)). pose proof (stored_size_bounds j ltac:(lia)) as Hb.
  pose proof chunks_bounds as Hcb. simpl.
  unfold IABS.osize, base in Hb. rewrite CS_value in *. lia.
Qed.


(** Nothing is written outside the stream. *)
Lemma h_encode_outside (sched : list nat) (output0 m : mem) (outsize a : Z) :
  h_encode sched output0 = Some (m, outsize) ->
  a < 0 \/ outsize <= a -> m a = output0 a.
Proof.
  intros He Ha. apply h_encode_Some in He as (Hinv & Hf & -> & ->).
  pose proof chunks_pos as Hcp.
  pose proof (offset_nonneg (Z.to_nat chunks) ltac:(lia)) as Hoff.
  unfold store_le. rewrite memcpy_outside by (unfold IABS.data_out in Ha; lia).
  rewrite (run_untouched sched (init output0) a); [done|apply inv_init|].
  intros j p Hj _.
  assert (j < Z.to_nat chunks)%nat as Hlt.
  { apply lookup_lt_Some in Hj. destruct Hinv as (_ & Hw & _). lia. }
  pose proof (offset_nonneg j ltac:(lia)).
  pose proof (offset_mono (S j) (Z.to_nat chunks) ltac:(lia)).
  unfold size_out, IABS.data_out in *. lia.
Qed.

(** A run in which every worker is done is a completed call. *)
Lemma h_encode_finished (sched : list nat) (output0 : mem) :
  finished (run sched (init output0)) = true ->
  exists m outsize, h_encode sched output0 = Some (m, outsize).
Proof.
  intros Hf. unfold IABS.h_encode. rewrite Hf.
  pose proof (inv_run sched _ (inv_init output0)) as Hinv.
  unfold IABS.finish. pose proof chunks_pos as Hcp.
  destruct (Z.ltb_spec 0 chunks); [|lia].
  destruct (finished_chunk _ (Z.to_nat (chunks - 1)) Hinv Hf ltac:(lia))
    as (_ & -> & _).
  simpl. eauto.
Qed.

(** X1. A completed [h_encode] reports an [outsize] of at least
    [8 + 2 * chunks] and at most [8 + 2 * chunks + insize], and leaves every
    byte of memory outside [output, output + outsize) as it was: an output
    buffer of [8 + 2 * chunks + insize] bytes is never overrun, whatever the
    stage and the schedule. *)
Theorem h_encode_bounds (sched : list nat) (output0 m : mem) (outsize : Z) :
  h_encode sched output0 = Some (m, outsize) ->
  8 + 2 * chunks <= outsize <= 8 + 2 * chunks + insize /\
  (forall a, a < 0 \/ outsize <= a -> m a = output0 a).
Proof.
  intros He.
  split; [|intros a; by apply (h_encode_outside sched output0 m outsize)].
  apply h_encode_Some in He as (_ & _ & _ & ->).
  pose proof chunks_pos as Hcp.
  pose proof (offset_nonneg (Z.to_nat chunks) ltac:(lia)).
  pose proof (offset_le_base (Z.to_nat chunks) ltac:(lia)).
  unfold IABS.data_out. lia.
Qed.

(** X2. The result of [h_encode] does not depend on the schedule of the
    workers: two runs that complete report the same [outsize] and leave the
    same byte at every address. *)
Theorem schedule_independence (sched1 sched2 : list nat)
    (output0 m1 m2 : mem) (outsize1 outsize2 : Z) :
  h_encode sched1 output0 = Some (m1, outsize1) ->
  h_encode sched2 output0 = Some (m2, outsize2) ->
  outsize1 = outsize2 /\ forall a, m1 a = m2 a.
Proof.
  intros He1 He2.
  destruct (h_encode_stream sched1 output0 m1 outsize1 He1) as [Ho1 Hs1].
  destruct (h_encode_stream sched2 output0 m2 outsize2 He2) as [Ho2 Hs2].
  assert (outsize1 = outsize2) as <- by congruence.
  split; [done|]. intros a.
  destruct (decide (0 <= a < outsize1)) as [Hin|Hout].
  - replace a with (0 + Z.of_nat (Z.to_nat a)) by lia.
    apply (load_eq_at m1 m2 0 (Z.to_nat outsize1)); [congruence|lia].
  - rewrite (h_encode_outside sched1 output0 m1 outsize1 a He1) by lia.
    rewrite (h_encode_outside sched2 output0 m2 outsize1 a He2) by lia.
    done.
Qed.

(** Four moves finish an iteration from wherever its worker stands, once
    the predecessor has published. *)
Lemma run_iteration_from (k : nat) (s : State) (p : Phase) :
  stage_nonempty h_BIT_4 ->
  inv s -> workers s !! k = Some p ->
  match k with
  | O => True
  | S k' => exists p', workers s !! k' = Some p' /\ (3 <= rank p')%nat
  end ->
  inv (run [k; k; k; k] s) /\
  (exists p', workers (run [k; k; k; k] s) !! k = Some p' /\ rank p' = 4%nat) /\
  (forall k', k' <> k -> workers (run [k; k; k; k] s) !! k' = workers s !! k').
Proof.
  intros Hstage Hinv Hp Hpred. simpl.
  assert (forall s1, (forall k', k' <> k -> workers s1 !! k' = workers s !! k') ->
            match k with
            | O => True
            | S k' => exists p', workers s1 !! k' = Some p' /\ (3 <= rank p')%nat
            end) as Hkeep.
  { intros s1 Hs1. destruct k as [|k']; [done|]. by rewrite Hs1 by lia. }
  assert (forall s1, (forall k', k' <> k -> workers s1 !! k' = workers s !! k') ->
            forall k', k' <> k ->
            workers (step_chunk k s1) !! k' = workers s !! k') as Hother.
  { intros s1 Hs1 k' Hne. rewrite step_chunk_workers_ne by done. by apply Hs1. }
  set (s1 := step_chunk k s).
  destruct (step_chunk_rank Hstage k s _ Hinv Hp Hpred) as (p1 & Hp1 & Hr1).
  pose proof (inv_step k s Hinv) as Hinv1.
  pose proof (Hother s (fun _ _ => eq_refl)) as Ho1. fold s1 in Hp1, Hinv1, Ho1.
  set (s2 := step_chunk k s1).
  destruct (step_chunk_rank Hstage k s1 _ Hinv1 Hp1 (Hkeep s1 Ho1))
    as (p2 & Hp2 & Hr2).
  pose proof (inv_step k s1 Hinv1) as Hinv2.
  pose proof (Hother s1 Ho1) as Ho2. fold s2 in Hp2, Hinv2, Ho2.
  set (s3 := step_chunk k s2).
  destruct (step_chunk_rank Hstage k s2 _ Hinv2 Hp2 (Hkeep s2 Ho2))
    as (p3 & Hp3 & Hr3).
  pose proof (inv_step k s2 Hinv2) as Hinv3.
  pose proof (Hother s2 Ho2) as Ho3. fold s3 in Hp3, Hinv3, Ho3.
  destruct (step_chunk_rank Hstage k s3 _ Hinv3 Hp3 (Hkeep s3 Ho3))
    as (p4 & Hp4 & Hr4).
  split; [by apply inv_step|]. split; [|by apply Hother].
  exists p4. split; [done|]. lia.
Qed.

Lemma run_sequential_from (j : nat) (s : State) :
  stage_nonempty h_BIT_4 -> inv s ->
  (j <= Z.to_nat chunks)%nat ->
  inv (run (flat_map (fun k => [k; k; k; k]) (seq 0 j)) s) /\
  (forall k, (k < j)%nat ->
     exists p, workers (run (flat_map (fun k => [k; k; k; k]) (seq 0 j)) s) !! k
               = Some p /\ rank p = 4%nat).
Proof.
  intros Hstage Hinv0. induction j as [|j IH]; intros Hj.
  - split; [done|]. intros; lia.
  - specialize (IH ltac:(lia)) as (Hinv & Hdone).
    rewrite seq_S, flat_map_app, run_app. cbn [flat_map]. rewrite app_nil_r.
    rewrite Nat.add_0_l.
    set (s' := run (flat_map (fun k => [k; k; k; k]) (seq 0 j)) s) in *.
    assert (exists p, workers s' !! j = Some p) as [p Hp].
    { apply lookup_lt_is_Some. destruct Hinv as (_ & Hw & _). lia. }
    destruct (run_iteration_from j s' p Hstage Hinv Hp) as (Hi & Hd & Ho).
    { destruct j as [|j']; [done|].
      destruct (Hdone j' ltac:(lia)) as (q & Hq & Hr). exists q. split; [done|lia]. }
    split; [done|].
    intros k Hk. destruct (decide (k = j)) as [->|Hne]; [done|].
    rewrite Ho by done. apply Hdone. lia.
Qed.

(** X3. No interleaving of the workers can keep [h_encode] from completing:
    whatever moves have been made, letting the iterations run on in order
    completes the call.  The stage never reports success with nothing
    written. *)
Theorem completion_from_any_state (sched : list nat) (output0 : mem) :
  stage_nonempty h_BIT_4 ->
  exists m outsize, h_encode (sched ++ sequential) output0 = Some (m, outsize).
Proof.
  intros Hstage.
  pose proof (inv_run sched _ (inv_init output0)) as Hinv0.
  destruct (run_sequential_from (Z.to_nat chunks) _ Hstage Hinv0 ltac:(lia))
    as (Hinv & Hdone).
  unfold IABS.h_encode, IABS.sequential. rewrite run_app.
  set (s := run (flat_map _ _) (run sched (init output0))) in *.
  assert (finished s = true) as Hf.
  { unfold finished. apply forallb_forall. intros p Hp.
    apply list_elem_of_In, list_elem_of_lookup in Hp as [k Hk].
    destruct (Hdone k) as (p' & Hp' & Hr).
    { apply lookup_lt_Some in Hk. destruct Hinv as (_ & Hw & _). lia. }
    rewrite Hk in Hp'. injection Hp' as <-. by destruct p. }
  rewrite Hf. unfold IABS.finish. pose proof chunks_pos as Hcp.
  destruct (Z.ltb_spec 0 chunks); [|lia].
  destruct (finished_chunk s (Z.to_nat (chunks - 1)) Hinv Hf ltac:(lia))
    as (_ & -> & _).
  simpl. eauto.
Qed.

(** X4. A carry slot is written once: a slot that holds a value other than
    0 holds that value in every later state, whatever the workers do. *)
Theorem carry_set_once (sched later : list nat) (output0 : mem) (k : nat)
    (v : Z) :
  carry (run sched (init output0)) !! k = Some v -> v <> 0 ->
  carry (run (sched ++ later) (init output0)) !! k = Some v.
Proof.
  intros Hv Hnz. rewrite run_app.
  pose proof (inv_run sched _ (inv_init output0)) as Hinv.
  set (s := run sched (init output0)) in *.
  pose proof (inv_run later s Hinv) as (_ & _ & Hall').
  pose proof Hinv as (Hc & Hw & Hall).
  assert (exists p, workers s !! k = Some p) as [p Hp].
  { apply lookup_lt_is_Some. apply lookup_lt_Some in Hv. lia. }
  destruct (rank_mono_run later k s p Hp) as (p' & Hp' & Hle).
  specialize (Hall k p Hp). specialize (Hall' k p' Hp').
  assert (v = offset (S k) /\ (3 <= rank p)%nat) as [-> Hr].
  { destruct p; simpl in Hall; destruct_and?; split; simpl;
      congruence || lia. }
  destruct p'; simpl in Hle; try lia; by destruct Hall'.
Qed.

(** X5. With a stage that never shrinks a chunk (it reports failure, or
    leaves at least as many bytes as it was given), the stream is the input
    behind the header and the table: [outsize] is
    [8 + 2 * chunks + insize], every entry of the table is the original size
    of its chunk, and the payload is the input, byte for byte. *)
Theorem raw_fallback_identity (sched : list nat) (output0 m : mem)
    (outsize : Z) :
  (forall c, fst (h_BIT_4 c) = false \/
             (length c <= length (snd (h_BIT_4 c)))%nat) ->
  h_encode sched output0 = Some (m, outsize) ->
  outsize = 8 + 2 * chunks + insize /\
  (forall chunkID, (chunkID < Z.to_nat chunks)%nat ->
     le_value (load m (size_out chunkID) 2) = osize chunkID) /\
  load m (8 + 2 * chunks) (Z.to_nat insize) = input.
Proof.
  intros Hraw He.
  assert (forall k, (k < Z.to_nat chunks)%nat -> compressed k = false) as Hc.
  { intros k Hk. apply compressed_false.
    pose proof (length_load_chunk k Hk) as Hl.
    unfold IABS.encode_chunk.
    destruct (Hraw (load_chunk k)) as [Hf|Hlen];
      destruct (h_BIT_4 (load_chunk k)) as [g o]; simpl in *; [by left|].
    right. lia. }
  assert (forall j, (j <= Z.to_nat chunks)%nat ->
            flat_map stored_bytes (seq 0 j) = flat_map load_chunk (seq 0 j))
    as Hsame.
  { induction j as [|j IH]; intros Hj; [done|].
    rewrite !seq_S, !flat_map_app, IH by lia. cbn [flat_map].
    rewrite Nat.add_0_l. by rewrite stored_bytes_raw by (apply Hc; lia). }
  assert (payload = input) as Hpay.
  { unfold IABS.payload. rewrite Hsame by lia. apply chunks_partition. }
  assert (offset (Z.to_nat chunks) = insize) as Hoff.
  { rewrite <- (length_payload_upto (Z.to_nat chunks)) by lia.
    change (flat_map stored_bytes (seq 0 (Z.to_nat chunks))) with payload.
    rewrite Hpay. lia. }
  pose proof (h_encode_stream sched output0 m outsize He) as [Hlen Hstream].
  rewrite length_CompressedStream, Hoff in Hlen.
  split; [unfold IABS.data_out in Hlen; lia|]. split.
  - intros k Hk.
    destruct (h_encode_chunk sched output0 m outsize k He Hk)
      as (_ & _ & -> & _).
    unfold IABS.stored_size. by rewrite Hc.
  - apply h_encode_Some in He as (Hinv & Hf & -> & _).
    rewrite load_store_le_disjoint by (right; pose proof chunks_pos; lia).
    etransitivity; [|exact Hpay].
    change (8 + 2 * chunks) with data_out.
    replace (Z.to_nat insize) with (Z.to_nat (offset (Z.to_nat chunks)))
      by (by rewrite Hoff).
    apply load_payload; [done|]. intros k Hk.
    by destruct (finished_chunk _ k Hinv Hf Hk) as (_ & _ & _ & ?).
Qed.

(** [n] moves of one worker, its predecessor having published. *)
Lemma run_moves (k n : nat) (s : State) (p : Phase) :
  stage_nonempty h_BIT_4 ->
  inv s -> workers s !! k = Some p ->
  match k with
  | O => True
  | S k' => exists p', workers s !! k' = Some p' /\ (3 <= rank p')%nat
  end ->
  inv (run (repeat k n) s) /\
  (exists p', workers (run (repeat k n) s) !! k = Some p' /\
              rank p' = Nat.min 4 (rank p + n)) /\
  (forall k', k' <> k -> workers (run (repeat k n) s) !! k' = workers s !! k').
Proof.
  intros Hstage. revert s p. induction n as [|n IH]; intros s p Hinv Hp Hpred.
  - split; [done|]. split; [|done]. exists p. split; [done|].
    destruct p; simpl; lia.
  - destruct (step_chunk_rank Hstage k s p Hinv Hp Hpred) as (p1 & Hp1 & Hr1).
    destruct (IH (step_chunk k s) p1 (inv_step k s Hinv) Hp1)
      as (Hi & (p' & Hp' & Hr') & Ho).
    { destruct k as [|k']; [done|]. by rewrite step_chunk_workers_ne by lia. }
    split; [exact Hi|]. split.
    + exists p'. split; [exact Hp'|]. lia.
    + intros k' Hne. cbn [repeat]. change (run (k :: repeat k n) s)
        with (run (repeat k n) (step_chunk k s)).
      rewrite Ho by done. by apply step_chunk_workers_ne.
Qed.

(** X6. The payload is not placed in chunk order.  With two chunks or
    more, the moves 0,0,0,1,1,1,1 lead to a state in which the worker of
    chunk 0 has published its carry but stored nothing, while chunk 1 is
    stored: its bytes are in place behind a window that still holds what the
    output buffer held before the call.  The stage never reports success
    with nothing written. *)
Theorem store_before_predecessor (output0 : mem) :
  stage_nonempty h_BIT_4 ->
  CS < insize ->
  let s := run (repeat 0%nat 3 ++ repeat 1%nat 4) (init output0) in
  workers s !! 0%nat = Some (Published 0) /\
  workers s !! 1%nat = Some (Done (offset 1)) /\
  0 < offset 1 /\
  load (output s) (data_out + offset 1) (length (stored_bytes 1))
  = stored_bytes 1 /\
  (forall a, data_out <= a < data_out + offset 1 -> output s a = output0 a).
Proof.
  intros Hstage Hbig. cbv zeta. rewrite run_app.
  assert (2 <= chunks) as Hn.
  { pose proof chunks_bounds. rewrite CS_value in *. lia. }
  assert (forall j p, workers (init output0) !! j = Some p -> p = Idle)
    as Hidle.
  { intros j p Hj. simpl in Hj. by apply lookup_replicate in Hj as [-> _]. }
  assert (forall j, (j < Z.to_nat chunks)%nat ->
            workers (init output0) !! j = Some Idle) as Hstart.
  { intros j Hj. simpl. apply lookup_replicate. split; [done|lia]. }
  destruct (run_moves 0 3 (init output0) Idle Hstage (inv_init output0)
              (Hstart 0%nat ltac:(lia)) I)
    as (Hinv3 & (p3 & Hp3 & Hr3) & Hrest3).
  set (s3 := run (repeat 0%nat 3) (init output0)) in *.
  assert (p3 = Published 0) as ->.
  { destruct Hinv3 as (_ & _ & Hall). specialize (Hall 0%nat p3 Hp3).
    destruct p3; try discriminate Hr3. by destruct Hall as [_ ->]. }
  destruct (run_moves 1 4 s3 Idle Hstage Hinv3)
    as (Hinv7 & (p7 & Hp7 & Hr7) & Hrest7).
  { rewrite Hrest3 by done. apply Hstart. lia. }
  { exists (Published 0). split; [done|]. cbn [rank]. lia. }
  set (s7 := run (repeat 1%nat 4) s3) in *.
  pose proof (offset_pos Hstage 1 ltac:(lia)) as Hpos1.
  assert (p7 = Done (offset 1) /\
          load (output s7) (data_out + offset 1) (length (stored_bytes 1))
          = stored_bytes 1) as [-> Hload].
  { destruct Hinv7 as (_ & _ & Hall). specialize (Hall 1%nat p7 Hp7).
    destruct p7; try discriminate Hr7.
    destruct Hall as (_ & -> & _ & Hl). done. }
  split; [by rewrite Hrest7, Hp3|]. split; [done|]. split; [done|].
  split; [done|].
  intros a Ha. unfold s7.
  rewrite (run_untouched (repeat 1%nat 4) s3 a Hinv3).
  - unfold s3. apply (run_untouched (repeat 0%nat 3) (init output0) a);
      [apply inv_init|].
    fold s3. intros j p Hj Hd.
    destruct (decide (j = 0%nat)) as [->|Hne0].
    + rewrite Hp3 in Hj. by injection Hj as <-.
    + rewrite Hrest3 in Hj by done. by rewrite (Hidle j p Hj) in Hd.
  - fold s7. intros j p Hj Hd.
    destruct (decide (j = 1%nat)) as [->|Hne1].
    { split; [right|left]; unfold size_out, IABS.data_out in *; lia. }
    rewrite Hrest7 in Hj by done.
    destruct (decide (j = 0%nat)) as [->|Hne0].
    + rewrite Hp3 in Hj. by injection Hj as <-.
    + rewrite Hrest3 in Hj by done. by rewrite (Hidle j p Hj) in Hd.
Qed.

End EncoderProperties.

(** ** The driver *)

Section DriverProperties.

Context (h_QUANT_IABS_0_f32 : list byte -> list byte).
Context (past_end : list byte -> mem).

Local Abbreviation dataset := (dataset h_QUANT_IABS_0_f32).
Local Abbreviation widen_dataset := (widen_dataset h_QUANT_IABS_0_f32).
Local Abbreviation run_datasets := (run_datasets h_QUANT_IABS_0_f32).
Local Abbreviation process := (process h_QUANT_IABS_0_f32 past_end).
Local Abbreviation main := (main h_QUANT_IABS_0_f32 past_end).

(** [insize / 4 / dataset_size] is the number of whole datasets of 8828
    bytes. *)
Lemma num_datasets_div (insize : Z) :
  0 <= insize -> Z.quot (Z.quot insize 4) dataset_size = insize / 8828.
Proof.
  intros Hin. unfold dataset_size.
  rewrite (Z.quot_div_nonneg insize 4) by lia.
  rewrite Z.quot_div_nonneg by (try apply Z.div_pos; lia).
  by rewrite Z.div_div by lia.
Qed.

(** The stores of [m] consecutive elements of an array of 8-byte objects
    that starts at element [first]. *)
Lemma fold_store_cells (val : nat -> Z) (first : Z) (m : nat) (heap : mem) :
  let heap' :=
    fold_left (fun h idx => store_le h (8 * (first + Z.of_nat idx)) 8 (val idx))
              (seq 0 m) heap in
  (forall a, a < 8 * first \/ 8 * (first + Z.of_nat m) <= a -> heap' a = heap a) /\
  (forall idx, (idx < m)%nat ->
     load heap' (8 * (first + Z.of_nat idx)) 8 = le_bytes 8 (val idx)).
Proof.
  induction m as [|m [IHout IHin]]; cbv zeta.
  - split; [done|]. intros; lia.
  - rewrite seq_S, fold_left_app. cbn [fold_left]. rewrite Nat.add_0_l. split.
    + intros a Ha. unfold store_le. rewrite memcpy_outside by lia.
      apply IHout. lia.
    + intros idx Hidx. destruct (decide (idx = m)) as [->|Hne].
      * apply load_store_le_same.
      * rewrite load_store_le_disjoint by lia. apply IHin. lia.
Qed.

Lemma widen_dataset_spec (input : list byte) (heap : mem) (ds : nat) :
  let heap' := widen_dataset input heap ds in
  (forall a, a < 8 * (Z.of_nat ds * dataset_size) \/
             8 * (Z.of_nat (S ds) * dataset_size) <= a -> heap' a = heap a) /\
  (forall idx, (idx < Z.to_nat dataset_size)%nat ->
     load heap' (8 * (Z.of_nat ds * dataset_size + Z.of_nat idx)) 8
     = le_bytes 8 (widen (word_at (dataset input ds) idx))).
Proof.
  cbv zeta. unfold IABS.widen_dataset.
  change (Z.to_nat (Z.quot (dataset_size * 4) 4)) with (Z.to_nat dataset_size).
  destruct (fold_store_cells
              (fun idx => widen (word_at (dataset input ds) idx))
              (Z.of_nat ds * dataset_size) (Z.to_nat dataset_size) heap)
    as [Hout Hin].
  split; [|exact Hin].
  intros a Ha. apply Hout. unfold dataset_size in *. lia.
Qed.

(** The array [out_data] after the loop over [n] datasets: element
    [ds * dataset_size + idx] holds the widened word [idx] of the quantized
    dataset [ds]; memory past the array is as it was found. *)
Lemma fold_widen_dataset (input : list byte) (heap : mem) (n : nat) :
  let heap' := fold_left (widen_dataset input) (seq 0 n) heap in
  (forall a, a < 0 \/ 8 * (Z.of_nat n * dataset_size) <= a -> heap' a = heap a) /\
  (forall ds idx, (ds < n)%nat -> (idx < Z.to_nat dataset_size)%nat ->
     load heap' (8 * (Z.of_nat ds * dataset_size + Z.of_nat idx)) 8
     = le_bytes 8 (widen (word_at (dataset input ds) idx))).
Proof.
  induction n as [|n [IHout IHin]]; cbv zeta.
  - split; [done|]. intros; lia.
  - rewrite seq_S, fold_left_app. cbn [fold_left]. rewrite Nat.add_0_l.
    set (h := fold_left (widen_dataset input) (seq 0 n) heap) in *.
    destruct (widen_dataset_spec input h n) as [Hout Hin]. split.
    + intros a Ha. rewrite Hout by (unfold dataset_size in *; lia).
      apply IHout. unfold dataset_size in *. lia.
    + intros ds idx Hds Hidx. destruct (decide (ds = n)) as [->|Hne].
      * by apply Hin.
      * rewrite <- IHin by (done || lia). apply load_ext. intros i Hi.
        apply Hout. unfold dataset_size in *. lia.
Qed.

Lemma take_drop_load (m : mem) (a n len : nat) :
  (a + n <= len)%nat ->
  take n (drop a (load m 0 len)) = load m (Z.of_nat a) n.
Proof.
  intros Hle. replace len with (a + (n + (len - a - n)))%nat by lia.
  rewrite !load_app.
  rewrite drop_app_length' by (by rewrite length_load).
  rewrite take_app_length' by (by rewrite length_load).
  f_equal.
Qed.

Lemma process_Return (argv : list string) (fs : FileSystem) (heap : mem)
    (input : list byte) (insize : Z) (printed : list Message) :
  exit (process argv fs heap input insize printed) = Return 0 ->
  exists out_name,
    argv !! 2%nat = Some out_name /\
    writable fs out_name = true /\
    contents (files (process argv fs heap input insize printed)) !! out_name
    = Some (load (read_from (run_datasets input insize heap)
                            (out_data_bytes insize) (past_end input))
                 0 (Z.to_nat (insize * 2))).
Proof.
  unfold IABS.process. destruct (argv !! 2%nat) as [out_name|]; [|done].
  simpl. unfold fopen_wb.
  destruct (writable fs out_name) eqn:Hw; [|done]. simpl. intros _.
  exists out_name. split; [done|]. split; [done|]. apply lookup_insert_eq.
Qed.

(** The ways in which [main] reaches line 169. *)
Lemma main_Return (argv : list string) (fs : FileSystem) (heap : mem) :
  exit (main argv fs heap) = Return 0 ->
  exists in_name input,
    argv !! 1%nat = Some in_name /\
    contents fs !! in_name = Some input /\
    input <> [] /\
    (argv !! 3%nat = None \/ argv !! 3%nat = Some "y"%string) /\
    main argv fs heap
    = process argv fs heap input (Z.of_nat (length input))
        ([Banner; Copyright] ++ [OriginalSize (Z.of_nat (length input))]).
Proof.
  unfold IABS.main.
  destruct (Z.ltb_spec (Z.of_nat (length argv)) 3); [done|].
  destruct (argv !! 1%nat) as [in_name|] eqn:H1; [|done]. simpl.
  destruct (contents fs !! in_name) as [input|] eqn:Hfile; [|done].
  destruct (Z.leb_spec (Z.of_nat (length input)) 0); [done|].
  assert (input <> []) by (intros ->; simpl in *; lia).
  destruct (argv !! 3%nat) as [perf_str|] eqn:H3.
  - destruct (String.eqb_spec perf_str "y") as [->|]; [|done].
    intros _. exists in_name, input. split_and!; auto.
  - intros _. exists in_name, input. split_and!; auto.
Qed.

(** ** The claims about [main] *)

(** C8, as the code has it.  With fewer than two file arguments [main]
    prints the usage line and returns -1.  An empty input file is a fatal
    error: the message goes to [stderr], the exception ends the process and
    no file is written.  A flag that is present and is not ["y"] is a fatal
    error in the same way, once the input has been read; with a flag,
    [main] returns 0 only if the flag is ["y"].  The stream of an input
    file that cannot be opened is not examined: the null stream is handed
    to [fseek] and [ftell]. *)
Theorem main_input_errors (argv : list string) (fs : FileSystem)
    (heap : mem) :
  let r := main argv fs heap in
  ((length argv < 3)%nat ->
     exit r = Return (-1) /\ -1 <> 0 /\
     stdout r = [Banner; Copyright; Usage (argv !! 0%nat)] /\
     files r = fs) /\
  (forall in_name, (3 <= length argv)%nat ->
     argv !! 1%nat = Some in_name -> contents fs !! in_name = Some [] ->
     exit r = Throw "LC error" /\ stderr r = [InputTooSmall] /\ files r = fs) /\
  (forall in_name input flag,
     argv !! 1%nat = Some in_name -> contents fs !! in_name = Some input ->
     input <> [] -> argv !! 3%nat = Some flag -> flag <> "y"%string ->
     exit r = Throw "LC error" /\ stderr r = [InvalidArgument] /\ files r = fs) /\
  (forall flag, argv !! 3%nat = Some flag -> exit r = Return 0 ->
     flag = "y"%string) /\
  (forall in_name, (3 <= length argv)%nat ->
     argv !! 1%nat = Some in_name -> contents fs !! in_name = None ->
     exit r = Undefined).
Proof.
  cbv zeta. split; [|split; [|split; [|split]]].
  - intros Hargc. unfold IABS.main.
    destruct (Z.ltb_spec (Z.of_nat (length argv)) 3); [done|lia].
  - intros in_name Hargc H1 Hfile. unfold IABS.main.
    destruct (Z.ltb_spec (Z.of_nat (length argv)) 3); [lia|].
    rewrite H1. simpl. rewrite Hfile. done.
  - intros in_name input flag H1 Hfile Hne H3 Hflag. unfold IABS.main.
    assert (3 < length argv)%nat by by eapply lookup_lt_Some.
    destruct (Z.ltb_spec (Z.of_nat (length argv)) 3); [lia|].
    rewrite H1. simpl. rewrite Hfile.
    destruct (Z.leb_spec (Z.of_nat (length input)) 0).
    { destruct input; simpl in *; [done|lia]. }
    rewrite H3. by destruct (String.eqb_spec flag "y").
  - intros flag H3 Hret.
    destruct (main_Return argv fs heap Hret) as (? & ? & _ & _ & _ & Hf & _).
    destruct Hf as [Hf|Hf]; rewrite Hf in H3; by simplify_eq.
  - intros in_name Hargc H1 Hfile. unfold IABS.main.
    destruct (Z.ltb_spec (Z.of_nat (length argv)) 3); [lia|].
    rewrite H1. simpl. rewrite Hfile. done.
Qed.

(** The bytes [fwrite] delivers for the content [input] of the input
    file. *)
Local Abbreviation delivered input heap :=
  (load (read_from (run_datasets input (Z.of_nat (length input)) heap)
                   (out_data_bytes (Z.of_nat (length input)))
                   (past_end input))
        0 (Z.to_nat (Z.of_nat (length input) * 2))).

(** The bytes of element [idx] of dataset [ds] of [out_data], written out
    from the input: the four bytes at [4 * idx] of the quantized dataset,
    read as a little-endian word, shifted by 20 into the bits of 1.0. *)
Local Abbreviation element input ds idx :=
  (le_bytes 8
     (Z.lor 0x3FF0000000000000
        (Z.shiftl
           (le_value
              (take 4
                 (drop (4 * idx)
                    (h_QUANT_IABS_0_f32
                       (take (Z.to_nat 8828)
                          (drop (Z.to_nat (Z.of_nat ds * 8828)) input))))))
           20))).

Lemma main_written (argv : list string) (fs : FileSystem) (heap : mem) :
  exit (main argv fs heap) = Return 0 ->
  exists in_name out_name input,
    argv !! 1%nat = Some in_name /\
    contents fs !! in_name = Some input /\ input <> [] /\
    argv !! 2%nat = Some out_name /\
    contents (files (main argv fs heap)) !! out_name
    = Some (delivered input heap).
Proof.
  intros Hret.
  destruct (main_Return argv fs heap Hret)
    as (in_name & input & H1 & Hfile & Hne & _ & Hmain).
  rewrite Hmain in Hret |- *.
  destruct (process_Return _ _ _ _ _ _ Hret) as (out_name & H2 & _ & Hout).
  exists in_name, out_name, input. done.
Qed.

Lemma out_data_bytes_div (insize : Z) :
  0 <= insize -> out_data_bytes insize = 8 * (insize / 8828 * 2207).
Proof.
  intros Hin. unfold out_data_bytes. cbv zeta.
  by rewrite (num_datasets_div insize Hin).
Qed.

Lemma load_read_from_inside (array behind : mem) (size a : Z) (n : nat) :
  a + Z.of_nat n <= size ->
  load (read_from array size behind) a n = load array a n.
Proof.
  intros Hin. apply load_ext. intros i Hi. unfold read_from.
  destruct (Z.ltb_spec (a + Z.of_nat i) size); [done|lia].
Qed.

(** Element [idx] of dataset [ds] of [out_data] after the loop. *)
Lemma array_element (input : list byte) (heap : mem) (n ds idx : nat) :
  (ds < n)%nat -> (idx < 2207)%nat ->
  load (fold_left (widen_dataset input) (seq 0 n) heap)
       (8 * (Z.of_nat ds * 2207 + Z.of_nat idx)) 8
  = element input ds idx.
Proof.
  intros Hds Hidx.
  destruct (fold_widen_dataset input heap n) as [_ Hcells].
  etransitivity; [apply (Hcells ds idx Hds); unfold dataset_size; lia|].
  reflexivity.
Qed.



(** ** The claims about [main], continued *)


(** ** Further properties of [main] *)

Lemma word_at_range (lc_data : list byte) (idx : nat) :
  0 <= word_at lc_data idx < 2 ^ 32.
Proof.
  unfold word_at.
  pose proof (le_value_range (take 4 (drop (4 * idx) lc_data))) as Hr.
  assert (length (take 4 (drop (4 * idx) lc_data)) <= 4)%nat as Hl
    by (rewrite length_take; lia).
  assert (256 ^ Z.of_nat (length (take 4 (drop (4 * idx) lc_data)))
          <= 256 ^ 4) by (apply Z.pow_le_mono_r; lia).
  change (2 ^ 32) with (256 ^ 4). lia.
Qed.

(** The word and the bits of 1.0 do not meet. *)
Lemma ref_double_disjoint (w : Z) :
  0 <= w < 2 ^ 32 -> Z.land ref_double (w * 2 ^ 20) = 0.
Proof.
  intros Hw. change ref_double with (1023 * 2 ^ 52).
  apply Z.bits_inj'. intros n Hn. rewrite Z.land_spec, Z.bits_0.
  destruct (Z.lt_ge_cases n 52) as [Hlt|Hge].
  - by rewrite Z.mul_pow2_bits_low by lia.
  - assert (Z.testbit (w * 2 ^ 20) n = false) as ->; [|apply andb_false_r].
    apply Z.testbit_false; [lia|].
    rewrite Z.div_small; [done|].
    split; [lia|]. apply Z.lt_le_trans with (2 ^ 52).
    + change (2 ^ 52) with (2 ^ 32 * 2 ^ 20). lia.
    + apply Z.pow_le_mono_r; lia.
Qed.

Lemma widen_add (w : Z) :
  0 <= w < 2 ^ 32 -> widen w = ref_double + w * 2 ^ 20.
Proof.
  intros Hw. unfold widen. rewrite Z.shiftl_mul_pow2 by lia.
  rewrite Z.add_nocarry_lxor by by apply ref_double_disjoint.
  symmetry. by apply Z.lxor_lor, ref_double_disjoint.
Qed.

(** X7. The widening of lines 192-199 puts the 32-bit word into bits 20 to
    51 of the bit pattern of the double 1.0 and changes nothing else: sign
    and exponent stay those of 1.0 (the value lies in [1, 2)), the low 20
    bits are 0, and the word is read back by a shift.  This holds for every
    word of every quantized dataset. *)
Theorem widen_word (lc_data : list byte) (idx : nat) :
  let w := word_at lc_data idx in
  0 <= w < 2 ^ 32 /\
  widen w = ref_double + w * 2 ^ 20 /\
  Z.shiftr (widen w) 52 = 1023 /\
  Z.land (widen w) (2 ^ 20 - 1) = 0 /\
  Z.land (Z.shiftr (widen w) 20) (2 ^ 32 - 1) = w.
Proof.
  cbv zeta. pose proof (word_at_range lc_data idx) as Hw.
  set (w := word_at lc_data idx) in *.
  split; [done|]. split; [by apply widen_add|].
  rewrite (widen_add w Hw). change ref_double with (1023 * 2 ^ 52).
  split; [|split].
  - rewrite Z.shiftr_div_pow2 by lia.
    symmetry. apply Z.div_unique with (w * 2 ^ 20); lia.
  - change (2 ^ 20 - 1) with (Z.ones 20). rewrite Z.land_ones by lia.
    replace (1023 * 2 ^ 52 + w * 2 ^ 20)
      with ((1023 * 2 ^ 32 + w) * 2 ^ 20)
      by (change (2 ^ 52) with (2 ^ 32 * 2 ^ 20); lia).
    apply Z.mod_mul. lia.
  - change (2 ^ 32 - 1) with (Z.ones 32). rewrite Z.land_ones by lia.
    rewrite Z.shiftr_div_pow2 by lia.
    replace (1023 * 2 ^ 52 + w * 2 ^ 20)
      with ((1023 * 2 ^ 32 + w) * 2 ^ 20)
      by (change (2 ^ 52) with (2 ^ 32 * 2 ^ 20); lia).
    rewrite Z.div_mul by lia.
    rewrite Z.add_comm, Z.mod_add by lia. apply Z.mod_small. lia.
Qed.

(** X8. [main] returns 0 exactly when the input file named by the first
    argument can be read and is not empty, a fourth argument, if there is
    one, is ["y"], and the file named by the second argument can be opened
    for writing. *)
Theorem main_returns_zero (argv : list string) (fs : FileSystem)
    (heap : mem) :
  exit (main argv fs heap) = Return 0 <->
  exists in_name out_name input,
    argv !! 1%nat = Some in_name /\
    contents fs !! in_name = Some input /\ input <> [] /\
    (argv !! 3%nat = None \/ argv !! 3%nat = Some "y"%string) /\
    argv !! 2%nat = Some out_name /\ writable fs out_name = true.
Proof.
  split.
  - intros Hret.
    destruct (main_Return argv fs heap Hret)
      as (in_name & input & H1 & Hfile & Hne & Hflag & Hmain).
    rewrite Hmain in Hret.
    destruct (process_Return _ _ _ _ _ _ Hret) as (out_name & H2 & Hw & _).
    exists in_name, out_name, input. done.
  - intros (in_name & out_name & input & H1 & Hfile & Hne & Hflag & H2 & Hw).
    assert (2 < length argv)%nat by by eapply lookup_lt_Some.
    unfold IABS.main.
    destruct (Z.ltb_spec (Z.of_nat (length argv)) 3); [lia|].
    rewrite H1. simpl. rewrite Hfile.
    destruct (Z.leb_spec (Z.of_nat (length input)) 0).
    { destruct input; simpl in *; [done|lia]. }
    assert (exit (process argv fs heap input (Z.of_nat (length input))
                    ([Banner; Copyright]
                     ++ [OriginalSize (Z.of_nat (length input))]))
            = Return 0) as Hproc.
    { unfold IABS.process. rewrite H2. simpl. unfold fopen_wb.
      by rewrite Hw. }
    destruct Hflag as [-> | ->]; [done|]. by rewrite String.eqb_refl.
Qed.

(** X9. [main] writes no file but the one named by its second argument:
    every other file holds afterwards what it held before, and when [main]
    does not return 0 the file system is as it was. *)
Theorem main_other_files (argv : list string) (fs : FileSystem) (heap : mem) :
  (forall name, argv !! 2%nat <> Some name ->
     contents (files (main argv fs heap)) !! name = contents fs !! name) /\
  (exit (main argv fs heap) <> Return 0 -> files (main argv fs heap) = fs).
Proof.
  assert (forall input insize printed,
    (forall name, argv !! 2%nat <> Some name ->
       contents (files (process argv fs heap input insize printed)) !! name
       = contents fs !! name) /\
    (exit (process argv fs heap input insize printed) <> Return 0 ->
     files (process argv fs heap input insize printed) = fs)) as Hproc.
  { intros input insize printed. unfold IABS.process.
    destruct (argv !! 2%nat) as [out_name|]; simpl; [|done].
    unfold fopen_wb. destruct (writable fs out_name); simpl; [|done].
    split; [|done]. intros name Hne.
    rewrite !lookup_insert_ne by congruence. done. }
  unfold IABS.main. repeat case_match; simpl; try done; apply Hproc.
Qed.

(** X10. The performance flag changes nothing: with ["y"] as the fourth
    argument, and whatever follows it, [main] prints, writes and returns
    what it does with the two file names alone. *)
Theorem performance_flag_ignored (prog in_name out_name : string)
    (more : list string) (fs : FileSystem) (heap : mem) :
  main (prog :: in_name :: out_name :: "y"%string :: more) fs heap
  = main [prog; in_name; out_name] fs heap.
Proof.
  unfold IABS.main.
  destruct (Z.ltb_spec
              (Z.of_nat (length (prog :: in_name :: out_name
                                 :: "y"%string :: more))) 3) as [Hlt|_].
  { simpl in Hlt. lia. }
  simpl. destruct (contents fs !! in_name) as [input|]; [|done].
  by destruct (Z.of_nat (length input) <=? 0).
Qed.

Lemma take_drop_take (l : list byte) (a n m : nat) :
  (a + n <= m)%nat -> take n (drop a (take m l)) = take n (drop a l).
Proof.
  intros Hle. rewrite !take_drop_commute, take_take.
  by replace (Nat.min (a + n) m) with (a + n)%nat by lia.
Qed.

Lemma load_cells (m : mem) (f : nat -> list byte) (n : nat) :
  (forall c, (c < n)%nat -> load m (8 * Z.of_nat c) 8 = f c) ->
  load m 0 (8 * n) = flat_map f (seq 0 n).
Proof.
  induction n as [|n IH]; intros Hall; [done|].
  replace (8 * S n)%nat with (8 * n + 8)%nat by lia.
  rewrite load_app, IH by (intros; apply Hall; lia).
  rewrite seq_S, flat_map_app. cbn [flat_map]. rewrite Nat.add_0_l, app_nil_r.
  f_equal. rewrite <- (Hall n) by lia. f_equal. lia.
Qed.

Lemma flat_map_seq_ext (f g : nat -> list byte) (n : nat) :
  (forall c, (c < n)%nat -> f c = g c) ->
  flat_map f (seq 0 n) = flat_map g (seq 0 n).
Proof.
  induction n as [|n IH]; intros Hfg; [done|].
  rewrite !seq_S, !flat_map_app, IH by (intros; apply Hfg; lia).
  cbn [flat_map]. rewrite Nat.add_0_l. by rewrite (Hfg n) by lia.
Qed.

(** The part of the file that comes from [out_data], element after
    element. *)
Lemma delivered_array (input : list byte) (heap : mem) (n : nat) :
  Z.of_nat n = Z.of_nat (length input) / 8828 ->
  take (8 * (2207 * n)) (delivered input heap)
  = flat_map (fun c => element input (c / 2207) (c mod 2207))
             (seq 0 (2207 * n)).
Proof.
  intros Hn. rewrite <- (drop_0 (delivered input heap)).
  set (insize := Z.of_nat (length input)) in *.
  assert (0 <= insize) as Hin by lia.
  pose proof (Z.mul_div_le insize 8828 ltac:(lia)) as Hwhole.
  rewrite take_drop_load by lia.
  rewrite load_read_from_inside
    by (rewrite (out_data_bytes_div insize Hin); lia).
  unfold IABS.run_datasets. rewrite (num_datasets_div insize Hin), <- Hn.
  rewrite Nat2Z.id. apply load_cells. intros c Hc.
  pose proof (Nat.div_mod_eq c 2207) as Hdm.
  pose proof (Nat.mod_upper_bound c 2207 ltac:(lia)) as Hmod.
  assert (c / 2207 < n)%nat as Hds.
  { apply Nat.Div0.div_lt_upper_bound. lia. }
  rewrite <- (array_element input heap n (c / 2207) (c mod 2207) Hds Hmod).
  f_equal. lia.
Qed.

(** X11. [out_data] holds nothing of the input but its whole datasets: in
    two runs of [main] that return 0 on inputs of the same size which agree
    on their first [8828 * (insize / 8828)] bytes, the files agree on their
    first [8 * 2207 * (insize / 8828)] bytes, the bytes [fwrite] takes from
    the array.  The loop of lines 174-204 reads no byte of the
    [insize mod 8828] at the end of the input. *)
Theorem out_data_from_whole_datasets
    (argv1 argv2 : list string) (fs1 fs2 : FileSystem) (heap1 heap2 : mem)
    (in1 in2 out1 out2 : string) (input1 input2 written1 written2 : list byte)
    (n : nat) :
  exit (main argv1 fs1 heap1) = Return 0 ->
  argv1 !! 1%nat = Some in1 -> contents fs1 !! in1 = Some input1 ->
  argv1 !! 2%nat = Some out1 ->
  contents (files (main argv1 fs1 heap1)) !! out1 = Some written1 ->
  exit (main argv2 fs2 heap2) = Return 0 ->
  argv2 !! 1%nat = Some in2 -> contents fs2 !! in2 = Some input2 ->
  argv2 !! 2%nat = Some out2 ->
  contents (files (main argv2 fs2 heap2)) !! out2 = Some written2 ->
  length input1 = length input2 ->
  Z.of_nat n = Z.of_nat (length input1) / 8828 ->
  take (Z.to_nat 8828 * n) input1 = take (Z.to_nat 8828 * n) input2 ->
  take (8 * (2207 * n)) written1 = take (8 * (2207 * n)) written2.
Proof.
  intros Hret1 H11 Hf1 H12 Hw1 Hret2 H21 Hf2 H22 Hw2 Hlen Hn Htake.
  destruct (main_written argv1 fs1 heap1 Hret1)
    as (? & ? & ? & E1 & E2 & _ & E3 & Hout1).
  rewrite H11 in E1. injection E1 as <-.
  rewrite Hf1 in E2. injection E2 as <-.
  rewrite H12 in E3. injection E3 as <-.
  rewrite Hw1 in Hout1. injection Hout1 as ->.
  destruct (main_written argv2 fs2 heap2 Hret2)
    as (? & ? & ? & E1 & E2 & _ & E3 & Hout2).
  rewrite H21 in E1. injection E1 as <-.
  rewrite Hf2 in E2. injection E2 as <-.
  rewrite H22 in E3. injection E3 as <-.
  rewrite Hw2 in Hout2. injection Hout2 as ->.
  rewrite (delivered_array input1 heap1 n Hn).
  rewrite (delivered_array input2 heap2 n) by (by rewrite <- Hlen).
  apply flat_map_seq_ext. intros c Hc.
  pose proof (Nat.div_mod_eq c 2207) as Hdm.
  pose proof (Nat.mod_upper_bound c 2207 ltac:(lia)) as Hmod.
  assert (c / 2207 < n)%nat as Hds.
  { apply Nat.Div0.div_lt_upper_bound. lia. }
  do 6 f_equal.
  set (a := Z.to_nat (Z.of_nat (c / 2207) * 8828)).
  set (k := Z.to_nat 8828) in *.
  assert (a + k <= k * n)%nat as Hle by (unfold a, k; nia).
  rewrite <- (take_drop_take input1 a k (k * n) Hle).
  rewrite <- (take_drop_take input2 a k (k * n) Hle). by rewrite Htake.
Qed.

(** X12. When the input is a whole number of datasets and [main] returns
    0, the output file is determined by the input and the quantizer alone:
    it is, element after element, the 8 bytes of the double 1.0 with the
    little-endian word at [4 * idx] of the quantized dataset [ds] shifted
    into bits 20 to 51, for every dataset in order; no byte of it is read
    past the end of [out_data]. *)
Theorem whole_datasets_output (argv : list string) (fs : FileSystem)
    (heap : mem) (in_name out_name : string) (input : list byte) (n : nat) :
  exit (main argv fs heap) = Return 0 ->
  argv !! 1%nat = Some in_name -> contents fs !! in_name = Some input ->
  argv !! 2%nat = Some out_name ->
  Z.of_nat (length input) = 8828 * Z.of_nat n ->
  contents (files (main argv fs heap)) !! out_name
  = Some (flat_map
            (fun c =>
               le_bytes 8
                 (Z.lor 0x3FF0000000000000
                    (Z.shiftl
                       (le_value
                          (take 4
                             (drop (4 * (c mod 2207))
                                (h_QUANT_IABS_0_f32
                                   (take (Z.to_nat 8828)
                                      (drop
                                         (Z.to_nat
                                            (Z.of_nat (c / 2207) * 8828))
                                         input))))))
                       20)))
            (seq 0 (2207 * n))).
Proof.
  intros Hret H1 Hfile H2 Hlen.
  destruct (main_written argv fs heap Hret)
    as (? & ? & ? & E1 & E2 & _ & E3 & Hout).
  rewrite H1 in E1. injection E1 as <-.
  rewrite Hfile in E2. injection E2 as <-.
  rewrite H2 in E3. injection E3 as <-.
  rewrite Hout. f_equal.
  assert (Z.of_nat n = Z.of_nat (length input) / 8828) as Hn
    by (rewrite Hlen, Z.mul_comm, Z.div_mul; lia).
  rewrite <- (delivered_array input heap n Hn).
  symmetry. apply take_ge. rewrite length_load. lia.
Qed.

End DriverProperties.

(** ** Runs on concrete inputs *)

Lemma zz_stage_nonempty : stage_nonempty zz_stage.
Proof.
  intros c o Hc Hs. unfold zz_stage in Hs.
  repeat case_match; by simplify_eq.
Qed.

Lemma zz_stage_inverse : stage_inverse zz_stage zz_inverse.
Proof.
  intros c o Hs. unfold zz_stage in Hs.
  repeat case_match; by simplify_eq.
Qed.

Lemma junk_stage_nonempty : stage_nonempty junk_stage.
Proof. intros c o Hc Hs. unfold junk_stage in Hs. by simplify_eq. Qed.

Lemma length_two_chunks : CS + 2 = Z.of_nat (length two_chunks).
Proof. unfold two_chunks. by rewrite repeat_length. Qed.

(** Outside the contract the sentinel is ambiguous: the worker of chunk 0
    publishes 0 for a chunk the stage emptied, and the worker of chunk 1
    stays in its wait however often it is scheduled. *)
Lemma empty_stage_stalls (again : nat) :
  let s := run empty_stage two_chunks (CS + 2)
               ([0; 0; 0; 0; 1]%nat ++ repeat 1%nat again)
               (init (CS + 2) blank) in
  workers s !! 0%nat = Some (Done 0) /\
  carry s !! 0%nat = Some 0 /\
  workers s !! 1%nat = Some Spinning.
Proof.
  cbv zeta. rewrite run_app.
  set (s := run empty_stage two_chunks (CS + 2) [0; 0; 0; 0; 1]%nat
                (init (CS + 2) blank)).
  assert (workers s = [Done 0; Spinning] /\ carry s = [0; 0]) as [Hw Hc]
    by (split; vm_compute; reflexivity).
  assert (run empty_stage two_chunks (CS + 2) (repeat 1%nat again) s = s)
    as ->.
  { induction again as [|again IH]; [done|]. simpl.
    unfold step_chunk at 1. rewrite Hw, Hc. simpl. exact IH. }
  by rewrite Hw, Hc.
Qed.

Lemma round_trip_witness :
  (exists m outsize,
     h_encode zz_stage one_chunk 3 (sequential 3) blank = Some (m, outsize)) /\
  (forall sched m outsize,
     h_encode zz_stage one_chunk 3 sched blank = Some (m, outsize) ->
     decode zz_inverse (load m 0 (Z.to_nat outsize)) = Some one_chunk).
Proof.
  apply (round_trip zz_stage one_chunk 3).
  - reflexivity.
  - lia.
  - exact zz_stage_nonempty.
  - exact zz_stage_inverse.
  - lia.
Defined.

Lemma non_expansion_per_chunk_witness :
  exists m outsize,
    h_encode zz_stage one_chunk 3 [0; 0; 0; 0]%nat blank = Some (m, outsize) /\
    le_value (load m (size_out 0) 2) <= Z.min CS (3 - Z.of_nat 0 * CS).
Proof.
  eexists. eexists. split; [reflexivity|].
  apply (proj2 (non_expansion_per_chunk zz_stage one_chunk 3
                  eq_refl ltac:(lia) blank)
           [0; 0; 0; 0]%nat _ 12 0%nat).
  - reflexivity.
  - vm_compute. lia.
Defined.

Lemma payload_contiguity_witness :
  exists m outsize,
    h_encode zz_stage two_chunks (CS + 2) [0; 1; 0; 0; 1; 0; 1; 1]%nat blank
    = Some (m, outsize) /\
    offset zz_stage two_chunks (CS + 2) 1
    = offset zz_stage two_chunks (CS + 2) 0 + le_value (load m (size_out 0) 2) /\
    offset zz_stage two_chunks (CS + 2) 0 < offset zz_stage two_chunks (CS + 2) 1 /\
    offset zz_stage two_chunks (CS + 2) 1 < offset zz_stage two_chunks (CS + 2) 2.
Proof.
  assert (exists r,
            h_encode zz_stage two_chunks (CS + 2) [0; 1; 0; 0; 1; 0; 1; 1]%nat blank
            = Some r) as [[m outsize] He] by (eexists; reflexivity).
  exists m, outsize. split; [exact He|].
  pose proof (proj2 (payload_contiguity zz_stage two_chunks (CS + 2)
                       length_two_chunks ltac:(vm_compute; reflexivity)
                       blank zz_stage_nonempty)
                [0; 1; 0; 0; 1; 0; 1; 1]%nat m outsize He) as (_ & Hall & _).
  destruct (Hall 0%nat ltac:(vm_compute; lia)) as (_ & H0 & _ & _ & Hlt0 & _).
  destruct (Hall 1%nat ltac:(vm_compute; lia)) as (_ & _ & _ & _ & Hlt1 & _).
  split; [exact H0|]. split; [exact Hlt0|exact Hlt1].
Defined.

Lemma fallback_raw_policy_witness :
  exists m outsize,
    h_encode zz_stage one_chunk 3 [0; 0; 0; 0]%nat blank = Some (m, outsize) /\
    le_value (load m (size_out 0) 2) = 2 /\
    load m (data_out 3 + 0) 2 = [x00; x07].
Proof.
  eexists. eexists. split; [reflexivity|].
  pose proof (proj2 (fallback_raw_policy zz_stage one_chunk 3
                       eq_refl ltac:(lia) blank)
                [0; 0; 0; 0]%nat _ 12 0%nat eq_refl
                ltac:(vm_compute; lia)) as (Hkeep & _ & _).
  apply Hkeep. split; [reflexivity|vm_compute; reflexivity].
Defined.

Lemma chunk_planner_witness :
  (chunks (CS + 2) - 1) * CS < CS + 2 <= chunks (CS + 2) * CS /\
  osize (CS + 2) (Z.to_nat (chunks (CS + 2) - 1))
  = CS + 2 - (chunks (CS + 2) - 1) * CS.
Proof.
  pose proof (chunk_planner two_chunks (CS + 2) length_two_chunks
                ltac:(vm_compute; reflexivity)) as (_ & Hceil & _ & Hlast & _).
  split; [exact Hceil|exact Hlast].
Defined.

Lemma stream_layout_witness :
  exists m outsize,
    h_encode zz_stage one_chunk 3 [0; 0; 0; 0]%nat blank = Some (m, outsize) /\
    outsize = 8 + 2 * chunks 3
              + foldr Z.add 0 (map (stored_size zz_stage one_chunk 3) (seq 0 1)) /\
    load m 0 8 = le_bytes 8 3.
Proof.
  eexists. eexists. split; [reflexivity|].
  pose proof (proj2 (stream_layout zz_stage one_chunk 3
                       eq_refl ltac:(lia) blank)
                [0; 0; 0; 0]%nat _ 12 eq_refl) as (Hsize & _ & Hhead & _).
  split; [exact Hsize|exact Hhead].
Defined.

Lemma carry_sentinel_witness :
  let s := run zz_stage two_chunks (CS + 2) [0; 1; 0; 0; 1]%nat
               (init (CS + 2) blank) in
  workers s !! 1%nat = Some (Ready 16383) /\
  (carry s !! 1%nat = Some 0 <-> (2 < 3)%nat) /\
  exists v, carry s !! 0%nat = Some v /\ 0 < v.
Proof.
  cbv zeta.
  assert (workers (run zz_stage two_chunks (CS + 2) [0; 1; 0; 0; 1]%nat
                       (init (CS + 2) blank)) !! 1%nat
          = Some (Ready 16383)) as Hp by (vm_compute; reflexivity).
  split; [exact Hp|].
  pose proof (carry_sentinel zz_stage two_chunks (CS + 2)
                length_two_chunks ltac:(vm_compute; reflexivity)
                [0; 1; 0; 0; 1]%nat blank 1%nat (Ready 16383)
                zz_stage_nonempty Hp) as (_ & Hzero & Hpred & _).
  split; [exact Hzero|]. apply (Hpred 0%nat eq_refl). simpl. lia.
Defined.

Lemma raw_from_input_witness :
  exists m outsize,
    h_encode junk_stage one_chunk 3 [0; 0; 0; 0]%nat blank = Some (m, outsize) /\
    out (encode_chunk junk_stage one_chunk 3 0) = [xff; xff; xff] /\
    load m (data_out 3 + offset junk_stage one_chunk 3 0)
         (Z.to_nat (osize 3 0))
    = take (Z.to_nat (osize 3 0)) (drop (Z.to_nat (base 0)) one_chunk).
Proof.
  eexists. eexists. split; [reflexivity|]. split; [reflexivity|].
  apply (proj2 (raw_from_input junk_stage one_chunk 3
                  eq_refl ltac:(lia) blank)
           [0; 0; 0; 0]%nat _ 13 0%nat eq_refl).
  - vm_compute. lia.
  - left. reflexivity.
Defined.

(** An input file that cannot be opened: no message, no exception; the
    null stream goes to [fseek]. *)
Lemma main_unreadable_input :
  let argv := ["IABS"; "missing.bin"; "out.bin"]%string in
  let r := main (fun lc_data => lc_data) stale argv one_file blank in
  contents one_file !! "missing.bin"%string = None /\
  exit r = Undefined /\ stderr r = [] /\
  ~ (exists what, exit r = Throw what).
Proof.
  cbv zeta. split; [reflexivity|]. split; [reflexivity|].
  split; [reflexivity|]. intros [what Hwhat]. discriminate Hwhat.
Qed.

Lemma main_input_errors_witness :
  exit (main (fun lc_data => lc_data) stale
          ["IABS"; "in.bin"]%string one_file blank)
  = Return (-1) /\
  exit (main (fun lc_data => lc_data) stale
          ["IABS"; "in.bin"; "out.bin"; "n"]%string one_file blank)
  = Throw "LC error".
Proof.
  split.
  - apply (main_input_errors (fun lc_data => lc_data) stale
             ["IABS"; "in.bin"]%string one_file blank). simpl. lia.
  - apply (proj1 (proj2 (proj2
             (main_input_errors (fun lc_data => lc_data) stale
                ["IABS"; "in.bin"; "out.bin"; "n"]%string one_file blank)))
           "in.bin"%string [x01; x02; x03] "n"%string);
      [reflexivity | reflexivity | discriminate | reflexivity | discriminate].
Defined.

Lemma length_sample : Z.of_nat (length sample) = 8828.
Proof. vm_compute. reflexivity. Qed.


(** ** Runs on concrete inputs, further properties *)

Lemma h_encode_bounds_witness :
  exists m outsize,
    h_encode zz_stage one_chunk 3 [0; 0; 0; 0]%nat blank = Some (m, outsize) /\
    8 + 2 * chunks 3 <= outsize <= 8 + 2 * chunks 3 + 3 /\
    m 12 = blank 12.
Proof.
  eexists. eexists. split; [reflexivity|].
  pose proof (h_encode_bounds zz_stage one_chunk 3 eq_refl ltac:(lia)
                [0; 0; 0; 0]%nat blank _ 12 eq_refl) as [Hsize Hframe].
  split; [exact Hsize|]. apply Hframe. right. lia.
Defined.

Lemma schedule_independence_witness :
  exists m1 m2 outsize1 outsize2,
    h_encode zz_stage two_chunks (CS + 2) [0; 1; 0; 0; 1; 0; 1; 1]%nat blank
    = Some (m1, outsize1) /\
    h_encode zz_stage two_chunks (CS + 2) [1; 0; 0; 0; 0; 1; 1; 1; 1]%nat blank
    = Some (m2, outsize2) /\
    outsize1 = outsize2 /\ forall a, m1 a = m2 a.
Proof.
  destruct (h_encode_finished zz_stage two_chunks (CS + 2)
              length_two_chunks ltac:(vm_compute; reflexivity)
              [0; 1; 0; 0; 1; 0; 1; 1]%nat blank
              ltac:(vm_compute; reflexivity)) as (m1 & outsize1 & He1).
  destruct (h_encode_finished zz_stage two_chunks (CS + 2)
              length_two_chunks ltac:(vm_compute; reflexivity)
              [1; 0; 0; 0; 0; 1; 1; 1; 1]%nat blank
              ltac:(vm_compute; reflexivity)) as (m2 & outsize2 & He2).
  exists m1, m2, outsize1, outsize2.
  split; [exact He1|]. split; [exact He2|].
  exact (schedule_independence zz_stage two_chunks (CS + 2)
           length_two_chunks ltac:(vm_compute; reflexivity)
           _ _ blank m1 m2 outsize1 outsize2 He1 He2).
Defined.

Lemma completion_from_any_state_witness :
  exists m outsize,
    h_encode zz_stage two_chunks (CS + 2)
      ([1; 1; 0; 1]%nat ++ sequential (CS + 2)) blank
    = Some (m, outsize).
Proof.
  exact (completion_from_any_state zz_stage two_chunks (CS + 2)
           length_two_chunks ltac:(vm_compute; reflexivity)
           [1; 1; 0; 1]%nat blank zz_stage_nonempty).
Defined.

Lemma carry_set_once_witness :
  carry (run zz_stage two_chunks (CS + 2) ([0; 0; 0]%nat ++ [1; 1; 0; 1; 1]%nat)
             (init (CS + 2) blank)) !! 0%nat
  = Some 16383.
Proof.
  apply (carry_set_once zz_stage two_chunks (CS + 2)
           length_two_chunks ltac:(vm_compute; reflexivity)
           [0; 0; 0]%nat [1; 1; 0; 1; 1]%nat blank 0%nat 16383).
  - vm_compute. reflexivity.
  - lia.
Defined.

Lemma raw_fallback_identity_witness :
  exists m outsize,
    h_encode junk_stage one_chunk 3 [0; 0; 0; 0]%nat blank = Some (m, outsize) /\
    outsize = 8 + 2 * chunks 3 + 3 /\
    load m (8 + 2 * chunks 3) (Z.to_nat 3) = one_chunk.
Proof.
  assert (exists r,
            h_encode junk_stage one_chunk 3 [0; 0; 0; 0]%nat blank = Some r)
    as [[m outsize] He] by (eexists; reflexivity).
  exists m, outsize. split; [exact He|].
  destruct (raw_fallback_identity junk_stage one_chunk 3 eq_refl ltac:(lia)
              [0; 0; 0; 0]%nat blank m outsize) as (Hsize & _ & Hpayload).
  - intros c. left. reflexivity.
  - exact He.
  - split; [exact Hsize|exact Hpayload].
Defined.

Lemma store_before_predecessor_witness :
  let s := run zz_stage two_chunks (CS + 2) (repeat 0%nat 3 ++ repeat 1%nat 4)
               (init (CS + 2) blank) in
  workers s !! 0%nat = Some (Published 0) /\
  workers s !! 1%nat = Some (Done (offset zz_stage two_chunks (CS + 2) 1)) /\
  (forall a,
     data_out (CS + 2) <= a
       < data_out (CS + 2) + offset zz_stage two_chunks (CS + 2) 1 ->
     output s a = blank a).
Proof.
  cbv zeta.
  pose proof (store_before_predecessor zz_stage two_chunks (CS + 2)
                length_two_chunks ltac:(vm_compute; reflexivity)
                blank zz_stage_nonempty ltac:(vm_compute; reflexivity))
    as (H0 & H1 & _ & _ & Hframe).
  split; [exact H0|]. split; [exact H1|exact Hframe].
Defined.

Lemma out_data_from_whole_datasets_witness :
  exists written1 written2,
    contents (files (main bump stale ["IABS"; "in.bin"; "out.bin"]%string
                       one_dataset blank)) !! "out.bin"%string
    = Some written1 /\
    contents (files (main bump stale ["IABS"; "in.bin"; "out.bin"]%string
                       one_dataset' (fun _ => xff))) !! "out.bin"%string
    = Some written2 /\
    take (8 * (2207 * 1)) written1 = take (8 * (2207 * 1)) written2.
Proof.
  destruct (main_written bump stale ["IABS"; "in.bin"; "out.bin"]%string
              one_dataset blank eq_refl)
    as (? & out1 & input1 & _ & Hf1 & _ & E1 & Hw1).
  destruct (main_written bump stale ["IABS"; "in.bin"; "out.bin"]%string
              one_dataset' (fun _ => xff) eq_refl)
    as (? & out2 & input2 & _ & Hf2 & _ & E2 & Hw2).
  injection E1 as <-. injection E2 as <-.
  eexists. eexists. split; [exact Hw1|]. split; [exact Hw2|].
  apply (out_data_from_whole_datasets bump stale
           ["IABS"; "in.bin"; "out.bin"]%string
           ["IABS"; "in.bin"; "out.bin"]%string
           one_dataset one_dataset' blank (fun _ => xff)
           "in.bin"%string "in.bin"%string "out.bin"%string "out.bin"%string
           (sample ++ [x09]) (sample ++ [x0a])).
  - reflexivity.
  - reflexivity.
  - reflexivity.
  - reflexivity.
  - exact Hw1.
  - reflexivity.
  - reflexivity.
  - reflexivity.
  - reflexivity.
  - exact Hw2.
  - vm_compute. reflexivity.
  - vm_compute. reflexivity.
  - vm_compute. reflexivity.
Defined.

Lemma whole_datasets_output_witness :
  exists written,
    contents (files (main bump stale ["IABS"; "in.bin"; "out.bin"]%string
                       whole_dataset blank)) !! "out.bin"%string
    = Some written /\
    length written = Z.to_nat 17656 /\
    take 16 written
    = [x00; x00; x20; x30; x40; x50; xf0; x3f;
       x00; x00; x10; x10; x10; x10; xf0; x3f].
Proof.
  eexists. split.
  - apply (whole_datasets_output bump stale
             ["IABS"; "in.bin"; "out.bin"]%string whole_dataset blank
             "in.bin"%string "out.bin"%string sample 1).
    + reflexivity.
    + reflexivity.
    + reflexivity.
    + reflexivity.
    + vm_compute. reflexivity.
  - split; vm_compute; reflexivity.
Defined.

Lemma progress_witness :
  exists k p p',
    workers (run zz_stage two_chunks (CS + 2) [0; 1; 1]%nat
                 (init (CS + 2) blank)) !! k = Some p /\
    is_done p = false /\
    (forall j, (j < k)%nat ->
       exists q,
         workers (run zz_stage two_chunks (CS + 2) [0; 1; 1]%nat
                      (init (CS + 2) blank)) !! j = Some q /\
         is_done q = true) /\
    workers (step_chunk zz_stage two_chunks (CS + 2) k
               (run zz_stage two_chunks (CS + 2) [0; 1; 1]%nat
                    (init (CS + 2) blank))) !! k = Some p' /\
    rank p' = S (rank p).
Proof.
  apply (progress zz_stage two_chunks (CS + 2)
           length_two_chunks ltac:(vm_compute; reflexivity)
           zz_stage_nonempty [0; 1; 1]%nat blank).
  vm_compute. reflexivity.
Defined.
